(** * gstspotifysrc: the frame queue between the Spotify delivery thread
      and the pipeline's pull thread

    Shallow embedding of [src/gstspotifysrc.c].  The private structure of the
    element becomes a record, every function that runs under [priv->mutex]
    becomes a function on that record, and the answers of the outside world
    (the Spotify client library, the allocator) are arguments of the functions
    that consume them.  Calls that leave the element ([g_cond_broadcast], the
    client commands) are recorded in an effect log carried by the record. *)

From Stdlib Require Import ZArith List Bool Lia Sorted.
Import ListNotations.
Local Open Scope Z_scope.

(** ** C integers *)

Module CInt.

(** Conversion to [guint] (32 bits, unsigned). *)
Definition to_guint (x : Z) : Z := x mod 2 ^ 32.

(** Conversion to [guint64] / [GstClockTime] (64 bits, unsigned). *)
Definition to_guint64 (x : Z) : Z := x mod 2 ^ 64.

(** Conversion to [size_t] on an LP64 target. *)
Definition to_gsize (x : Z) : Z := x mod 2 ^ 64.

(** Conversion to [int] (32 bits, two's complement). *)
Definition to_gint (x : Z) : Z := (x + 2 ^ 31) mod 2 ^ 32 - 2 ^ 31.

Definition G_MAXUINT64 : Z := 2 ^ 64 - 1.

(** [sizeof (int16_t)]. *)
Definition sizeof_int16 : Z := 2.

End CInt.
Export CInt.

(** ** GStreamer and GLib items used by the element *)

(** [GST_SECOND] and [GST_MSECOND] of gstclock.h, in nanoseconds. *)
Definition GST_SECOND : Z := 1000000000.
Definition GST_MSECOND : Z := 1000000.

(** [gst_util_uint64_scale (val, num, denom)] of GStreamer's gstutils:
    [val * num / denom] rounded down, computed without intermediate overflow,
    and [G_MAXUINT64] when the quotient does not fit 64 bits. *)
Definition gst_util_uint64_scale (val num denom : Z) : Z :=
  let r := val * num / denom in
  if r <=? G_MAXUINT64 then r else G_MAXUINT64.

(** A [GstBuffer]: the payload and the three metadata fields the element
    writes. *)
Record GstBuffer : Type := {
  GST_BUFFER_DATA      : list Byte.byte;
  GST_BUFFER_SIZE      : Z;   (* guint *)
  GST_BUFFER_TIMESTAMP : Z;   (* GstClockTime *)
  GST_BUFFER_DURATION  : Z    (* GstClockTime *)
}.

Inductive GstFlowReturn : Type :=
| GST_FLOW_OK
| GST_FLOW_WRONG_STATE
| GST_FLOW_UNEXPECTED.

(** [sp_audioformat] of libspotify, as far as the delivery callback reads it. *)
Record sp_audioformat : Type := {
  sample_rate : Z;   (* int *)
  channels    : Z    (* int *)
}.

(** ** The element's private state *)

Definition DEFAULT_PROP_MAX_BYTES : Z := 1000000.

(** Calls that leave the element. *)
Inductive effect : Type :=
| CondBroadcast                          (* g_cond_broadcast (priv->cond) *)
| SessionBringUp (ok : bool)             (* spotify_create, _login, _play *)
| PlayerSeek (offset : Z) (ok : bool)    (* spw_session_player_seek *)
| PlayerStop                             (* spotify_stop *)
| SessionDestroy.                        (* spotify_destroy *)

(** [struct _GstSpotifySrcPrivate], without the strings, the caps (always
    NULL: set in init, never assigned again) and the track size, and with the
    log of effects (most recent first). *)
Record GstSpotifySrcPrivate : Type := {
  queue            : list GstBuffer;   (* GQueue, head first *)
  max_bytes        : Z;                (* guint64 *)
  flushing         : bool;
  started          : bool;
  is_eos           : bool;
  is_first_seek    : bool;
  queued_bytes     : Z;                (* guint64 *)
  stutter          : Z;                (* guint64 *)
  buffer_timestamp : Z;                (* GstClockTime *)
  effects          : list effect
}.

Section Setters.

Variable s : GstSpotifySrcPrivate.

Definition set_queue (q : list GstBuffer) : GstSpotifySrcPrivate :=
  {| queue := q; max_bytes := max_bytes s; flushing := flushing s;
     started := started s; is_eos := is_eos s;
     is_first_seek := is_first_seek s; queued_bytes := queued_bytes s;
     stutter := stutter s; buffer_timestamp := buffer_timestamp s;
     effects := effects s |}.

Definition set_flushing (b : bool) : GstSpotifySrcPrivate :=
  {| queue := queue s; max_bytes := max_bytes s; flushing := b;
     started := started s; is_eos := is_eos s;
     is_first_seek := is_first_seek s; queued_bytes := queued_bytes s;
     stutter := stutter s; buffer_timestamp := buffer_timestamp s;
     effects := effects s |}.

Definition set_started (b : bool) : GstSpotifySrcPrivate :=
  {| queue := queue s; max_bytes := max_bytes s; flushing := flushing s;
     started := b; is_eos := is_eos s;
     is_first_seek := is_first_seek s; queued_bytes := queued_bytes s;
     stutter := stutter s; buffer_timestamp := buffer_timestamp s;
     effects := effects s |}.

Definition set_is_eos (b : bool) : GstSpotifySrcPrivate :=
  {| queue := queue s; max_bytes := max_bytes s; flushing := flushing s;
     started := started s; is_eos := b;
     is_first_seek := is_first_seek s; queued_bytes := queued_bytes s;
     stutter := stutter s; buffer_timestamp := buffer_timestamp s;
     effects := effects s |}.

Definition set_is_first_seek (b : bool) : GstSpotifySrcPrivate :=
  {| queue := queue s; max_bytes := max_bytes s; flushing := flushing s;
     started := started s; is_eos := is_eos s;
     is_first_seek := b; queued_bytes := queued_bytes s;
     stutter := stutter s; buffer_timestamp := buffer_timestamp s;
     effects := effects s |}.

Definition set_queued_bytes (n : Z) : GstSpotifySrcPrivate :=
  {| queue := queue s; max_bytes := max_bytes s; flushing := flushing s;
     started := started s; is_eos := is_eos s;
     is_first_seek := is_first_seek s; queued_bytes := n;
     stutter := stutter s; buffer_timestamp := buffer_timestamp s;
     effects := effects s |}.

Definition set_stutter (n : Z) : GstSpotifySrcPrivate :=
  {| queue := queue s; max_bytes := max_bytes s; flushing := flushing s;
     started := started s; is_eos := is_eos s;
     is_first_seek := is_first_seek s; queued_bytes := queued_bytes s;
     stutter := n; buffer_timestamp := buffer_timestamp s;
     effects := effects s |}.

Definition set_buffer_timestamp (t : Z) : GstSpotifySrcPrivate :=
  {| queue := queue s; max_bytes := max_bytes s; flushing := flushing s;
     started := started s; is_eos := is_eos s;
     is_first_seek := is_first_seek s; queued_bytes := queued_bytes s;
     stutter := stutter s; buffer_timestamp := t;
     effects := effects s |}.

(** Record one call that leaves the element. *)
Definition emit (e : effect) : GstSpotifySrcPrivate :=
  {| queue := queue s; max_bytes := max_bytes s; flushing := flushing s;
     started := started s; is_eos := is_eos s;
     is_first_seek := is_first_seek s; queued_bytes := queued_bytes s;
     stutter := stutter s; buffer_timestamp := buffer_timestamp s;
     effects := e :: effects s |}.

End Setters.

(** ** The element's functions *)

(** [gst_spotify_src_init]: the instance-private block is handed out zeroed
    by GObject; init creates the empty queue and sets [max_bytes]. *)
Definition gst_spotify_src_init : GstSpotifySrcPrivate :=
  {| queue := []; max_bytes := DEFAULT_PROP_MAX_BYTES; flushing := false;
     started := false; is_eos := false; is_first_seek := false;
     queued_bytes := 0; stutter := 0; buffer_timestamp := 0;
     effects := [] |}.

(** The loop of [gst_spotify_src_flush_queued]: pop the head and drop it
    until [g_queue_pop_head] returns NULL. *)
Fixpoint flush_loop (q : list GstBuffer) : list GstBuffer :=
  match q with
  | [] => []
  | _ :: q' => flush_loop q'
  end.

Definition gst_spotify_src_flush_queued (s : GstSpotifySrcPrivate)
  : GstSpotifySrcPrivate :=
  set_queued_bytes (set_queue s (flush_loop (queue s))) 0.

Definition gst_spotify_src_unlock (s : GstSpotifySrcPrivate)
  : bool * GstSpotifySrcPrivate :=
  (true, emit (set_flushing s true) CondBroadcast).

Definition gst_spotify_src_unlock_stop (s : GstSpotifySrcPrivate)
  : bool * GstSpotifySrcPrivate :=
  (true, emit (set_flushing s false) CondBroadcast).

(** [gst_spotify_src_start]; [session_ok] is the outcome of
    [spotify_create && spotify_login && spotify_play]. *)
Definition gst_spotify_src_start (session_ok : bool) (s : GstSpotifySrcPrivate)
  : bool * GstSpotifySrcPrivate :=
  let s := set_is_first_seek s true in
  let s := set_flushing s false in
  let s := set_stutter s 0 in
  let s := set_buffer_timestamp s 0 in
  let s := emit s (SessionBringUp session_ok) in
  if negb session_ok then (false, s)
  else (true, set_started s true).

(** [gst_spotify_src_stop].  The source hands [priv->spotify_context] to
    [spotify_stop] and [spotify_destroy], which read and free it: this is
    the function for calls made while a session exists. *)
Definition gst_spotify_src_stop (s : GstSpotifySrcPrivate)
  : bool * GstSpotifySrcPrivate :=
  let s := set_is_eos s false in
  let s := set_flushing s true in
  let s := emit s PlayerStop in
  let s := gst_spotify_src_flush_queued s in
  let s := emit s SessionDestroy in
  (true, set_started s false).

(** [spotify_seek]: [sp_ok] tells whether [spw_session_player_seek] answered
    [SP_ERROR_OK]; the offset arrives as an [int]. *)
Definition spotify_seek (sp_ok : bool) (offset : Z) (s : GstSpotifySrcPrivate)
  : bool * GstSpotifySrcPrivate :=
  let offset := to_gint offset in
  let s := emit s (PlayerSeek offset sp_ok) in
  if negb sp_ok then (false, s) else (true, s).

(** [gst_spotify_src_do_seek]; [last_stop] is [segment->last_stop], a
    [gint64].  Past the skipped first seek the source reads
    [priv->spotify_context]: that path is the function for calls made while
    a session exists. *)
Definition gst_spotify_src_do_seek (sp_ok : bool) (last_stop : Z)
    (s : GstSpotifySrcPrivate) : bool * GstSpotifySrcPrivate :=
  let desired_position := last_stop in
  if is_first_seek s && (desired_position =? 0) then
    (true, set_is_first_seek s false)
  else
    let '(res, s) := spotify_seek sp_ok (Z.quot desired_position GST_MSECOND) s in
    if res then
      let s := gst_spotify_src_flush_queued s in
      let s := set_is_eos s false in
      let s := set_buffer_timestamp s (to_guint64 desired_position) in
      (res, s)
    else (res, s).

(** What a call of [gst_spotify_src_create] does next: return to the caller,
    or park in [g_cond_wait]. *)
Inductive create_outcome : Type :=
| Returned (ret : GstFlowReturn) (buf : option GstBuffer)
| CondWait.

(** One iteration of the [while (TRUE)] loop of [gst_spotify_src_create],
    entered with the mutex held.  The second emptiness test of the [else]
    branch sees the queue it has just seen empty. *)
Definition create_loop (s : GstSpotifySrcPrivate)
  : create_outcome * GstSpotifySrcPrivate :=
  match queue s with
  | buf :: q =>
      let s := set_queue s q in
      let buf_size := to_guint (GST_BUFFER_SIZE buf) in
      let s := set_queued_bytes s (to_guint64 (queued_bytes s - buf_size)) in
      let s := emit s CondBroadcast in
      (Returned GST_FLOW_OK (Some buf), s)
  | [] =>
      if flushing s then (Returned GST_FLOW_WRONG_STATE None, s)
      else if is_eos s then (Returned GST_FLOW_UNEXPECTED None, s)
      else (CondWait, set_stutter s (to_guint64 (stutter s + 1)))
  end.

(** A fresh call of [gst_spotify_src_create]: flushing is checked first.
    The prologue that refreshes the segment duration reads [priv->size] only
    and is left out. *)
Definition gst_spotify_src_create (s : GstSpotifySrcPrivate)
  : create_outcome * GstSpotifySrcPrivate :=
  if flushing s then (Returned GST_FLOW_WRONG_STATE None, s)
  else create_loop s.

(** The buffer built by [gst_spotify_src_alloc_and_queue]: [data_size] bytes
    copied from [data_frames], the duration of [num_frames] frames at
    44100 Hz, the running timestamp. *)
Definition new_buffer (s : GstSpotifySrcPrivate) (num_frames : Z)
    (data_frames : list Byte.byte) (data_size : Z) : GstBuffer :=
  {| GST_BUFFER_DATA := firstn (Z.to_nat data_size) data_frames;
     GST_BUFFER_SIZE := data_size;
     GST_BUFFER_TIMESTAMP := buffer_timestamp s;
     GST_BUFFER_DURATION := gst_util_uint64_scale num_frames GST_SECOND 44100 |}.

(** [gst_spotify_src_alloc_and_queue]; [num_frames] and [data_size] arrive as
    [guint]; [alloc_ok] tells whether [gst_buffer_new_and_alloc] returned a
    buffer. *)
Definition gst_spotify_src_alloc_and_queue (alloc_ok : bool) (num_frames : Z)
    (data_frames : list Byte.byte) (data_size : Z) (s : GstSpotifySrcPrivate)
  : bool * GstSpotifySrcPrivate :=
  let num_frames := to_guint num_frames in
  let data_size := to_guint data_size in
  if flushing s then (false, s)
  else if is_eos s then (false, s)
  else if negb (max_bytes s =? 0) && (max_bytes s <=? queued_bytes s) then
    (false, s)
  else if negb alloc_ok then (false, s)
  else
    let buffer := new_buffer s num_frames data_frames data_size in
    let duration := GST_BUFFER_DURATION buffer in
    let s := set_queue s (queue s ++ [buffer]) in
    let s := set_queued_bytes s
               (to_guint64 (queued_bytes s + GST_BUFFER_SIZE buffer)) in
    let s := set_buffer_timestamp s
               (to_guint64 (buffer_timestamp s + duration)) in
    let s := emit s CondBroadcast in
    (true, s).

Definition gst_spotify_src_end_of_stream (s : GstSpotifySrcPrivate)
  : GstSpotifySrcPrivate :=
  if flushing s then s
  else emit (set_is_eos s true) CondBroadcast.

(** [bufsize] of [spotify_music_delivery_cb]:
    [num_frames * sizeof (int16_t) * format->channels], formed in [size_t]
    and stored in a [guint]. *)
Definition delivery_bufsize (format : sp_audioformat) (num_frames : Z) : Z :=
  to_guint (to_gsize (to_gsize (num_frames * sizeof_int16)
                      * channels format)).

(** [spotify_music_delivery_cb]; the result is the number of frames
    consumed. *)
Definition spotify_music_delivery_cb (alloc_ok : bool)
    (format : sp_audioformat) (frames : list Byte.byte) (num_frames : Z)
    (s : GstSpotifySrcPrivate) : Z * GstSpotifySrcPrivate :=
  let bufsize := delivery_bufsize format num_frames in
  if num_frames =? 0 then (0, s)
  else
    let '(ok, s) :=
      gst_spotify_src_alloc_and_queue alloc_ok num_frames frames bufsize s in
    if ok then (num_frames, s) else (0, s).

Definition spotify_end_of_track_cb (s : GstSpotifySrcPrivate)
  : GstSpotifySrcPrivate :=
  gst_spotify_src_end_of_stream s.

(** ** Runs of the element

    The functions shared by the two threads (create, alloc_and_queue,
    end_of_stream, unlock, unlock_stop, start, stop) run to completion under
    [priv->mutex], except that [gst_spotify_src_create] gives the mutex up
    while it is parked in [g_cond_wait].  An execution is therefore a
    sequence of the following operations; [OpWake] is a parked call of create
    that got the mutex back and goes round the loop again.  do_seek and the
    flush of dispose do not take the mutex in the source; they are steps of
    the sequence like the others. *)

Inductive op : Type :=
| OpDelivery (alloc_ok : bool) (format : sp_audioformat)
             (frames : list Byte.byte) (num_frames : Z)
| OpQueue (alloc_ok : bool) (num_frames : Z) (data_frames : list Byte.byte)
          (data_size : Z)
| OpCreate
| OpWake
| OpUnlock
| OpUnlockStop
| OpStart (session_ok : bool)
| OpStop
| OpSeek (sp_ok : bool) (last_stop : Z)
| OpEndOfTrack
| OpFlush.

(** What an operation shows to its caller. *)
Inductive event : Type :=
| Queued (buffer : GstBuffer)
| Refused
| Pulled (o : create_outcome)
| Answered (ok : bool)
| Silent.

(** The buffer a call of [gst_spotify_src_alloc_and_queue] offers. *)
Definition offered_buffer (s : GstSpotifySrcPrivate) (num_frames : Z)
    (data_frames : list Byte.byte) (data_size : Z) : GstBuffer :=
  new_buffer s (to_guint num_frames) data_frames (to_guint data_size).

Definition step (o : op) (s : GstSpotifySrcPrivate)
  : GstSpotifySrcPrivate * event :=
  match o with
  | OpDelivery alloc_ok format frames num_frames =>
      let '(n, s') :=
        spotify_music_delivery_cb alloc_ok format frames num_frames s in
      (s', if n =? 0 then Refused
           else Queued (offered_buffer s num_frames frames
                            (delivery_bufsize format num_frames)))
  | OpQueue alloc_ok num_frames data_frames data_size =>
      let '(ok, s') :=
        gst_spotify_src_alloc_and_queue alloc_ok num_frames data_frames
          data_size s in
      (s', if ok then Queued (offered_buffer s num_frames data_frames
                                  data_size)
           else Refused)
  | OpCreate => let '(o, s') := gst_spotify_src_create s in (s', Pulled o)
  | OpWake => let '(o, s') := create_loop s in (s', Pulled o)
  | OpUnlock => let '(ok, s') := gst_spotify_src_unlock s in (s', Answered ok)
  | OpUnlockStop =>
      let '(ok, s') := gst_spotify_src_unlock_stop s in (s', Answered ok)
  | OpStart session_ok =>
      let '(ok, s') := gst_spotify_src_start session_ok s in (s', Answered ok)
  | OpStop => let '(ok, s') := gst_spotify_src_stop s in (s', Answered ok)
  | OpSeek sp_ok last_stop =>
      let '(ok, s') := gst_spotify_src_do_seek sp_ok last_stop s in
      (s', Answered ok)
  | OpEndOfTrack => (spotify_end_of_track_cb s, Silent)
  | OpFlush => (gst_spotify_src_flush_queued s, Silent)
  end.

(** State after a run. *)
Fixpoint exec (ops : list op) (s : GstSpotifySrcPrivate)
  : GstSpotifySrcPrivate :=
  match ops with
  | [] => s
  | o :: ops' => exec ops' (fst (step o s))
  end.

(** What the callers saw during a run. *)
Fixpoint trace (ops : list op) (s : GstSpotifySrcPrivate) : list event :=
  match ops with
  | [] => []
  | o :: ops' => snd (step o s) :: trace ops' (fst (step o s))
  end.

(** Buffers enqueued to the queue, in order of admission. *)
Fixpoint enqueued (es : list event) : list GstBuffer :=
  match es with
  | [] => []
  | Queued b :: es' => b :: enqueued es'
  | _ :: es' => enqueued es'
  end.

(** Buffers handed to the consumer, in order of delivery. *)
Fixpoint delivered (es : list event) : list GstBuffer :=
  match es with
  | [] => []
  | Pulled (Returned _ (Some b)) :: es' => b :: delivered es'
  | _ :: es' => delivered es'
  end.

(** Sum of the sizes of the queued buffers. *)
Fixpoint queued_sum (q : list GstBuffer) : Z :=
  match q with
  | [] => 0
  | b :: q' => GST_BUFFER_SIZE b + queued_sum q'
  end.

(** ** Vocabulary of the statements *)

(** The element as [gst_spotify_src_init] leaves it, for a given capacity;
    the source has [DEFAULT_PROP_MAX_BYTES] there and no other writer of
    [max_bytes]. *)
Definition element_of_capacity (m : Z) : GstSpotifySrcPrivate :=
  {| queue := []; max_bytes := m; flushing := false;
     started := false; is_eos := false; is_first_seek := false;
     queued_bytes := 0; stutter := 0; buffer_timestamp := 0;
     effects := [] |}.

(** A payload of [n] zero bytes. *)
Definition silence (n : nat) : list Byte.byte := repeat Byte.x00 n.

(** The four gates of [gst_spotify_src_alloc_and_queue], as one test. *)
Definition admits (alloc_ok : bool) (s : GstSpotifySrcPrivate) : bool :=
  negb (flushing s) && negb (is_eos s)
  && negb (negb (max_bytes s =? 0) && (max_bytes s <=? queued_bytes s))
  && alloc_ok.

(** The byte counter tells the truth about the queue, and nothing is about
    to wrap. *)
Definition accounted (s : GstSpotifySrcPrivate) : Prop :=
  queued_bytes s = queued_sum (queue s)
  /\ Forall (fun b => 0 <= GST_BUFFER_SIZE b < 2 ^ 32) (queue s)
  /\ 0 < max_bytes s <= 2 ^ 64 - 2 ^ 32
  /\ queued_bytes s < 2 ^ 64.

(** The duration the specification gives a delivery of [num_frames] frames:
    frames times one second over the delivered sample rate. *)
Definition spec_duration (format : sp_audioformat) (num_frames : Z) : Z :=
  num_frames * GST_SECOND / sample_rate format.

(** Operations within one run of playback: deliveries, pulls and wake-ups,
    unlock and unlock-stop, end of track, and seeks that the client refuses.
    Left out are start and stop, seeks that the client accepts, and
    disposal. *)
Definition plays_on (o : op) : bool :=
  match o with
  | OpStart _ | OpStop | OpSeek true _ | OpFlush => false
  | _ => true
  end.

Definition seeks_to_zero (o : op) : bool :=
  match o with
  | OpSeek _ last_stop => last_stop =? 0
  | _ => false
  end.

Definition is_start (o : op) : bool :=
  match o with
  | OpStart _ => true
  | _ => false
  end.

(** [l] is a chain of buffers from position [t] on: the first is stamped
    [t], each next one the timestamp of its predecessor plus the
    predecessor's duration. *)
Fixpoint follows (t : Z) (l : list GstBuffer) : Prop :=
  match l with
  | [] => True
  | b :: l' =>
      GST_BUFFER_TIMESTAMP b = t /\ follows (t + GST_BUFFER_DURATION b) l'
  end.

(** The same chain with the additions done in [guint64]. *)
Fixpoint follows_mod (t : Z) (l : list GstBuffer) : Prop :=
  match l with
  | [] => True
  | b :: l' =>
      GST_BUFFER_TIMESTAMP b = t
      /\ follows_mod (to_guint64 (t + GST_BUFFER_DURATION b)) l'
  end.

Fixpoint total_duration (l : list GstBuffer) : Z :=
  match l with
  | [] => 0
  | b :: l' => GST_BUFFER_DURATION b + total_duration l'
  end.

(** ** Buffer statistics and the session context *)

(** [sp_audio_buffer_stats] of libspotify: two [int]s. *)
Record sp_audio_buffer_stats : Type := {
  stats_samples : Z;
  stats_stutter : Z
}.

(** [spotify_get_audio_buffer_stats_cb]: the division is done in 64 bits
    unsigned, both results are stored in [int]s. *)
Definition spotify_get_audio_buffer_stats_cb (s : GstSpotifySrcPrivate)
  : sp_audio_buffer_stats :=
  {| stats_stutter := to_gint (stutter s);
     stats_samples :=
       to_gint (to_guint64 (queued_bytes s / (2 * sizeof_int16))) |}.

(** [sp_error]: [SP_ERROR_OK] is zero. *)
Definition SP_ERROR_OK : Z := 0.

(** [GstSpotifySessionContext], without the handles; [cond_signals] counts
    the calls of [g_cond_signal (context->cond)]. *)
Record GstSpotifySessionContext : Type := {
  destroy          : bool;
  logged_in        : bool;
  logged_out       : bool;
  play_token_lost  : bool;
  end_of_track     : bool;
  connection_error : Z;
  streaming_error  : Z;
  cond_signals     : nat
}.

Definition spotify_logged_in_cb (error : Z) (c : GstSpotifySessionContext)
  : GstSpotifySessionContext :=
  {| destroy := destroy c;
     logged_in := if error =? SP_ERROR_OK then true else false;
     logged_out := logged_out c; play_token_lost := play_token_lost c;
     end_of_track := end_of_track c; connection_error := connection_error c;
     streaming_error := streaming_error c; cond_signals := cond_signals c |}.

Definition spotify_logged_out_cb (c : GstSpotifySessionContext)
  : GstSpotifySessionContext :=
  {| destroy := destroy c; logged_in := false;
     logged_out := logged_out c; play_token_lost := play_token_lost c;
     end_of_track := end_of_track c; connection_error := connection_error c;
     streaming_error := streaming_error c; cond_signals := cond_signals c |}.

Definition spotify_connection_error_cb (error : Z)
    (c : GstSpotifySessionContext) : GstSpotifySessionContext :=
  {| destroy := destroy c; logged_in := logged_in c;
     logged_out := logged_out c; play_token_lost := play_token_lost c;
     end_of_track := end_of_track c; connection_error := error;
     streaming_error := streaming_error c; cond_signals := cond_signals c |}.

Definition spotify_notify_main_thread_cb (c : GstSpotifySessionContext)
  : GstSpotifySessionContext :=
  if negb (destroy c) then
    {| destroy := destroy c; logged_in := logged_in c;
       logged_out := logged_out c; play_token_lost := play_token_lost c;
       end_of_track := end_of_track c; connection_error := connection_error c;
       streaming_error := streaming_error c;
       cond_signals := S (cond_signals c) |}
  else c.

Definition spotify_play_token_lost_cb (c : GstSpotifySessionContext)
  : GstSpotifySessionContext :=
  {| destroy := destroy c; logged_in := logged_in c;
     logged_out := logged_out c; play_token_lost := true;
     end_of_track := end_of_track c; connection_error := connection_error c;
     streaming_error := streaming_error c; cond_signals := cond_signals c |}.

Definition spotify_streaming_error_cb (error : Z)
    (c : GstSpotifySessionContext) : GstSpotifySessionContext :=
  {| destroy := destroy c; logged_in := logged_in c;
     logged_out := logged_out c; play_token_lost := play_token_lost c;
     end_of_track := end_of_track c; connection_error := connection_error c;
     streaming_error := error; cond_signals := cond_signals c |}.

(** The callbacks of the table of [spotify_create] that act on the session
    context (or only log).  Music delivery, end of track and the buffer
    statistics act on the element and are modelled above. *)
Inductive session_callback : Type :=
| LoggedIn (error : Z)
| LoggedOut
| MetadataUpdated
| ConnectionError (error : Z)
| MessageToUser
| NotifyMainThread
| PlayTokenLost
| LogMessage
| StreamingError (error : Z)
| UserinfoUpdated.

Definition run_callback (c : GstSpotifySessionContext) (cb : session_callback)
  : GstSpotifySessionContext :=
  match cb with
  | LoggedIn error => spotify_logged_in_cb error c
  | LoggedOut => spotify_logged_out_cb c
  | ConnectionError error => spotify_connection_error_cb error c
  | NotifyMainThread => spotify_notify_main_thread_cb c
  | PlayTokenLost => spotify_play_token_lost_cb c
  | StreamingError error => spotify_streaming_error_cb error c
  | MetadataUpdated | MessageToUser | LogMessage | UserinfoUpdated => c
  end.

(** [spotify_loop]; [pending] are the callbacks that this call of
    [spw_session_process_events] invokes, in order. *)
Definition spotify_loop (pending : list session_callback)
    (c : GstSpotifySessionContext) : GstSpotifySessionContext :=
  if negb (destroy c) then fold_left run_callback pending c else c.

(** The busy wait of [spotify_login].  Each element of [pumps] is what one
    turn of the loop makes the client do; when [pumps] runs out with
    [logged_in] still clear the call has not returned ([None]). *)
Fixpoint login_wait (pumps : list (list session_callback))
    (c : GstSpotifySessionContext) : option bool * GstSpotifySessionContext :=
  if logged_in c then (Some true, c)
  else
    match pumps with
    | [] => (None, c)
    | pending :: pumps' => login_wait pumps' (spotify_loop pending c)
    end.

(** [spotify_login]; [ret] is the answer of [spw_session_login]. *)
Definition spotify_login (ret : Z) (pumps : list (list session_callback))
    (c : GstSpotifySessionContext) : option bool * GstSpotifySessionContext :=
  let c :=
    {| destroy := destroy c; logged_in := false;
       logged_out := logged_out c; play_token_lost := play_token_lost c;
       end_of_track := end_of_track c; connection_error := connection_error c;
       streaming_error := streaming_error c; cond_signals := cond_signals c |}
  in
  if ret =? SP_ERROR_OK then login_wait pumps c
  else (Some false, c).

(** Calls of [spotify_create] into the client library and GLib. *)
Inductive session_call : Type :=
| SpwSessionCreate (application_key : list Byte.byte)
| ThreadCreate
| SpwSessionRelease.

(** [sizeof (appkey)]. *)
Definition appkey_size : Z := 321.

(** [fread (appkey, sizeof (uint8_t), appkey_size, keyfile)] on a file just
    opened: the bytes that end up in [appkey], as many as the file has and
    [appkey_size] at most. *)
Definition fread_appkey (file : list Byte.byte) : list Byte.byte :=
  firstn (Z.to_nat appkey_size) file.

(** [spotify_create]; [keyfile] is the content of the file [fopen] opened,
    if it opened one, [ret] the answer of [spw_session_create], [thread_ok]
    tells whether [g_thread_create] returned a thread.  The result comes
    with the calls made, in order.  ([g_new0] does not return NULL.) *)
Definition spotify_create (keyfile : option (list Byte.byte)) (ret : Z)
    (thread_ok : bool) : bool * list session_call :=
  match keyfile with
  | None => (false, [])
  | Some file =>
      let appkey := fread_appkey file in
      let sz := Z.of_nat (length appkey) in
      if negb (sz =? appkey_size) then (false, [])
      else if ret =? SP_ERROR_OK then
        if negb thread_ok then
          (false, [SpwSessionCreate appkey; ThreadCreate; SpwSessionRelease])
        else (true, [SpwSessionCreate appkey; ThreadCreate])
      else (false, [SpwSessionCreate appkey])
  end.

(** ** Further vocabulary *)

Definition is_delivery (o : op) : bool :=
  match o with
  | OpDelivery _ _ _ _ | OpQueue _ _ _ _ => true
  | _ => false
  end.

(** Operations that end the flushing a stop has begun. *)
Definition reopens (o : op) : bool :=
  match o with
  | OpStart _ | OpUnlockStop => true
  | _ => false
  end.

(** Number of times a call of create parked. *)
Fixpoint waits (es : list event) : Z :=
  match es with
  | [] => 0
  | Pulled CondWait :: es' => 1 + waits es'
  | _ :: es' => waits es'
  end.

(** Without its last buffer the queue is below capacity. *)
Definition overshoot_bounded (s : GstSpotifySrcPrivate) : Prop :=
  forall q b, queue s = q ++ [b] -> queued_sum q < max_bytes s.

(** Two states of the element that differ in the effect log at most. *)
Definition same_element (s1 s2 : GstSpotifySrcPrivate) : Prop :=
  queue s1 = queue s2 /\ max_bytes s1 = max_bytes s2
  /\ flushing s1 = flushing s2 /\ started s1 = started s2
  /\ is_eos s1 = is_eos s2 /\ is_first_seek s1 = is_first_seek s2
  /\ queued_bytes s1 = queued_bytes s2 /\ stutter s1 = stutter s2
  /\ buffer_timestamp s1 = buffer_timestamp s2.

(** [subseq l1 l2]: [l1] is [l2] with some elements left out, the others in
    their order. *)
Inductive subseq {A : Type} : list A -> list A -> Prop :=
| subseq_nil : subseq [] []
| subseq_skip (x : A) (l1 l2 : list A) : subseq l1 l2 -> subseq l1 (x :: l2)
| subseq_take (x : A) (l1 l2 : list A) :
    subseq l1 l2 -> subseq (x :: l1) (x :: l2).

(** Operations that read [priv->spotify_context]: stop (through
    [spotify_stop] and [spotify_destroy]) and do_seek (through
    [spotify_seek]).  The skipped first seek does not read it and is counted
    all the same. *)
Definition uses_session (o : op) : bool :=
  match o with
  | OpStop | OpSeek _ _ => true
  | _ => false
  end.

(** Whether [priv->spotify_context] points to a live session after an
    operation.  A start that succeeds leaves one and stop frees it; a start
    that fails may leave the pointer NULL or dangling (as when the thread of
    [spotify_create] does not start) and is counted as leaving none. *)
Definition session_after (live : bool) (o : op) : bool :=
  match o with
  | OpStart session_ok => session_ok
  | OpStop => false
  | _ => live
  end.

Fixpoint session_live (live : bool) (ops : list op) : bool :=
  match ops with
  | [] => live
  | o :: ops' => session_live (session_after live o) ops'
  end.

(** Every operation of the run that reads the session finds one. *)
Fixpoint session_safe (live : bool) (ops : list op) : bool :=
  match ops with
  | [] => true
  | o :: ops' =>
      (negb (uses_session o) || live)
      && session_safe (session_after live o) ops'
  end.

(** ** Basic facts *)

Lemma flush_loop_nil (q : list GstBuffer) : flush_loop q = [].
Proof. induction q as [|b q IH]; simpl; [reflexivity | exact IH]. Qed.

Lemma queued_sum_app (q1 q2 : list GstBuffer) :
  queued_sum (q1 ++ q2) = queued_sum q1 + queued_sum q2.
Proof. induction q1 as [|b q1 IH]; simpl; [reflexivity | rewrite IH; ring]. Qed.

Lemma to_guint_range (x : Z) : 0 <= to_guint x < 2 ^ 32.
Proof. unfold to_guint. apply Z.mod_pos_bound. reflexivity. Qed.

Lemma to_guint_small (x : Z) : 0 <= x < 2 ^ 32 -> to_guint x = x.
Proof. intro H. unfold to_guint. apply Z.mod_small. exact H. Qed.

Lemma to_guint64_small (x : Z) : 0 <= x < 2 ^ 64 -> to_guint64 x = x.
Proof. intro H. unfold to_guint64. apply Z.mod_small. exact H. Qed.

Lemma to_guint64_range (x : Z) : 0 <= to_guint64 x < 2 ^ 64.
Proof. unfold to_guint64. apply Z.mod_pos_bound. reflexivity. Qed.

Lemma flush_queued_queue (s : GstSpotifySrcPrivate) :
  queue (gst_spotify_src_flush_queued s) = [].
Proof. unfold gst_spotify_src_flush_queued. simpl. apply flush_loop_nil. Qed.

Lemma flush_queued_bytes (s : GstSpotifySrcPrivate) :
  queued_bytes (gst_spotify_src_flush_queued s) = 0.
Proof. reflexivity. Qed.

Lemma alloc_and_queue_refused alloc_ok n d sz s :
  admits alloc_ok s = false ->
  gst_spotify_src_alloc_and_queue alloc_ok n d sz s = (false, s).
Proof.
  unfold admits, gst_spotify_src_alloc_and_queue. intro H.
  destruct (flushing s); [reflexivity|].
  destruct (is_eos s); [reflexivity|].
  destruct (negb (max_bytes s =? 0) && (max_bytes s <=? queued_bytes s));
    [reflexivity|].
  destruct alloc_ok; [discriminate H | reflexivity].
Qed.

Lemma alloc_and_queue_admitted alloc_ok n d sz s :
  admits alloc_ok s = true ->
  gst_spotify_src_alloc_and_queue alloc_ok n d sz s =
  (true,
   emit (set_buffer_timestamp
           (set_queued_bytes
              (set_queue s (queue s ++ [offered_buffer s n d sz]))
              (to_guint64 (queued_bytes s + to_guint sz)))
           (to_guint64 (buffer_timestamp s
                        + GST_BUFFER_DURATION (offered_buffer s n d sz))))
        CondBroadcast).
Proof.
  unfold admits, gst_spotify_src_alloc_and_queue. intro H.
  destruct (flushing s); [discriminate H|].
  destruct (is_eos s); [discriminate H|].
  destruct (negb (max_bytes s =? 0) && (max_bytes s <=? queued_bytes s));
    [discriminate H|].
  destruct alloc_ok; [reflexivity | discriminate H].
Qed.

Lemma queued_sum_nonneg (q : list GstBuffer) :
  Forall (fun b => 0 <= GST_BUFFER_SIZE b < 2 ^ 32) q -> 0 <= queued_sum q.
Proof.
  induction 1 as [|b q Hb _ IH]; simpl; lia.
Qed.

(** ** Byte accounting *)

Section Accounting.

Variable s : GstSpotifySrcPrivate.
Hypothesis Hacc : accounted s.

Lemma accounted_flush : accounted (gst_spotify_src_flush_queued s).
Proof.
  destruct Hacc as (_ & _ & Hm & _).
  unfold accounted. rewrite flush_queued_queue. simpl.
  repeat split; try lia. constructor.
Qed.

Lemma accounted_create_loop : accounted (snd (create_loop s)).
Proof.
  destruct Hacc as (Hq & Hs & Hm & Hlt).
  unfold create_loop. destruct (queue s) as [|b q] eqn:Eq.
  - destruct (flushing s); [|destruct (is_eos s)]; simpl;
      unfold accounted; simpl; rewrite Eq; repeat split; auto; lia.
  - simpl. inversion Hs as [|? ? Hb Hq']; subst.
    pose proof (queued_sum_nonneg q Hq') as Hnn. simpl in Hq.
    unfold accounted; simpl.
    rewrite (to_guint_small _ Hb).
    rewrite to_guint64_small by lia.
    repeat split; auto; lia.
Qed.

Lemma accounted_create : accounted (snd (gst_spotify_src_create s)).
Proof.
  unfold gst_spotify_src_create. destruct (flushing s).
  - exact Hacc.
  - exact accounted_create_loop.
Qed.

Lemma accounted_alloc_and_queue alloc_ok n d sz :
  accounted (snd (gst_spotify_src_alloc_and_queue alloc_ok n d sz s)).
Proof.
  destruct (admits alloc_ok s) eqn:Ha.
  - rewrite (alloc_and_queue_admitted _ _ _ _ _ Ha). simpl.
    destruct Hacc as (Hq & Hs & Hm & Hlt).
    pose proof (queued_sum_nonneg _ Hs) as Hnn.
    pose proof (to_guint_range sz) as Hsz.
    assert (Hroom : queued_bytes s < max_bytes s).
    { unfold admits in Ha.
      apply andb_prop in Ha as [Ha _].
      apply andb_prop in Ha as [_ Ha].
      apply negb_true_iff in Ha.
      apply andb_false_iff in Ha as [Ha | Ha].
      - apply negb_false_iff in Ha. apply Z.eqb_eq in Ha. lia.
      - apply Z.leb_gt in Ha. exact Ha. }
    unfold accounted; simpl.
    rewrite to_guint64_small by lia.
    rewrite queued_sum_app. simpl.
    repeat split; try lia.
    apply Forall_app. split; [exact Hs|]. constructor; [exact Hsz | constructor].
  - rewrite (alloc_and_queue_refused _ _ _ _ _ Ha). exact Hacc.
Qed.

Lemma accounted_step (o : op) : accounted (fst (step o s)).
Proof.
  destruct o as [a f fr n | a n d sz | | | | | ok | | ok pos | | ]; simpl.
  - unfold spotify_music_delivery_cb.
    destruct (n =? 0); [exact Hacc|].
    pose proof (accounted_alloc_and_queue a n fr (delivery_bufsize f n)) as H.
    destruct (gst_spotify_src_alloc_and_queue a n fr (delivery_bufsize f n) s)
      as [[|] s']; exact H.
  - pose proof (accounted_alloc_and_queue a n d sz) as H.
    destruct (gst_spotify_src_alloc_and_queue a n d sz s) as [ok s'].
    exact H.
  - pose proof accounted_create as H.
    destruct (gst_spotify_src_create s) as [r s']. exact H.
  - pose proof accounted_create_loop as H.
    destruct (create_loop s) as [r s']. exact H.
  - exact Hacc.
  - exact Hacc.
  - unfold gst_spotify_src_start. destruct ok; simpl; exact Hacc.
  - destruct Hacc as (_ & _ & Hm & _).
    unfold accounted; simpl. rewrite flush_loop_nil. simpl.
    repeat split; try lia. constructor.
  - unfold gst_spotify_src_do_seek.
    destruct (is_first_seek s && (pos =? 0)); [exact Hacc|].
    destruct ok; simpl.
    + destruct Hacc as (_ & _ & Hm & _).
      unfold accounted; simpl. rewrite flush_loop_nil. simpl.
      repeat split; try lia. constructor.
    + exact Hacc.
  - unfold spotify_end_of_track_cb, gst_spotify_src_end_of_stream.
    destruct (flushing s); exact Hacc.
  - exact accounted_flush.
Qed.

End Accounting.

Lemma accounted_exec (ops : list op) (s : GstSpotifySrcPrivate) :
  accounted s -> accounted (exec ops s).
Proof.
  revert s. induction ops as [|o ops IH]; intros s H; simpl.
  - exact H.
  - apply IH. apply accounted_step. exact H.
Qed.

Lemma accounted_init : accounted gst_spotify_src_init.
Proof.
  unfold accounted; simpl. unfold DEFAULT_PROP_MAX_BYTES.
  repeat split; try lia. constructor.
Qed.

(** C2.  Starting from the element as [gst_spotify_src_init] leaves it, after
    every operation of every sequence of enqueues, dequeues, flushes and the
    other entry points (each taken as one step under the mutex),
    [queued_bytes] is exactly the sum of the sizes of the buffers in the
    queue.  [firstn k ops] ranges over the prefixes of the run. *)
Theorem queued_bytes_is_sum_of_queue (ops : list op) (k : nat) :
  queued_bytes (exec (firstn k ops) gst_spotify_src_init)
  = queued_sum (queue (exec (firstn k ops) gst_spotify_src_init)).
Proof.
  exact (proj1 (accounted_exec (firstn k ops) _ accounted_init)).
Qed.

(** ** Admission *)

(** C1, as stated, fails.  Capacity 500, buffers of 100 and 200 bytes queued:
    a third buffer of 300 bytes would bring the total to 600, yet
    [gst_spotify_src_alloc_and_queue] admits it and the queue holds 600
    bytes. *)
Lemma third_buffer_admitted_over_capacity :
  let s2 := exec [OpQueue true 25 (silence 100) 100;
                  OpQueue true 50 (silence 200) 200]
                 (element_of_capacity 500) in
  let r := gst_spotify_src_alloc_and_queue true 75 (silence 300) 300 s2 in
  max_bytes s2 = 500
  /\ queued_bytes s2 = 300
  /\ queued_bytes s2 + 300 > max_bytes s2
  /\ fst r = true
  /\ queued_bytes (snd r) = 600
  /\ map GST_BUFFER_SIZE (queue (snd r)) = [100; 200; 300].
Proof. vm_compute. repeat split. Qed.

(** The same on the element as init leaves it (capacity 1000000): three
    deliveries of 65536 stereo frames queue 786432 bytes, and the fourth,
    262144 bytes more, is taken as well. *)
Lemma fourth_delivery_overshoots_default_capacity :
  let format := {| sample_rate := 44100; channels := 2 |} in
  let frames := silence (Z.to_nat 262144) in
  let d := OpDelivery true format frames 65536 in
  let s3 := exec [OpStart true; d; d; d] gst_spotify_src_init in
  queued_bytes s3 = 786432
  /\ fst (spotify_music_delivery_cb true format frames 65536 s3) = 65536
  /\ queued_bytes (snd (spotify_music_delivery_cb true format frames 65536 s3))
     = 1048576
  /\ max_bytes (snd (spotify_music_delivery_cb true format frames 65536 s3))
     = 1000000.
Proof. vm_compute. repeat split. Qed.

(** C1, amended.  With a non-zero capacity the enqueue is refused, and the
    element left as it was, whenever [queued_bytes] has already reached
    [max_bytes]; the size of the offered buffer plays no part.  Below
    [max_bytes], when the element is neither flushing nor at end of stream
    and the allocation succeeds, the buffer is enqueued at the tail and
    [queued_bytes] grows by its size, also beyond [max_bytes]. *)
Theorem alloc_and_queue_capacity_gate alloc_ok n d sz s :
  max_bytes s <> 0 ->
  (max_bytes s <= queued_bytes s ->
   gst_spotify_src_alloc_and_queue alloc_ok n d sz s = (false, s))
  /\ (queued_bytes s < max_bytes s ->
      flushing s = false -> is_eos s = false -> alloc_ok = true ->
      fst (gst_spotify_src_alloc_and_queue alloc_ok n d sz s) = true
      /\ queue (snd (gst_spotify_src_alloc_and_queue alloc_ok n d sz s))
         = queue s ++ [offered_buffer s n d sz]
      /\ queued_bytes (snd (gst_spotify_src_alloc_and_queue alloc_ok n d sz s))
         = to_guint64 (queued_bytes s + to_guint sz)).
Proof.
  intro Hm. split.
  - intro Hfull. apply alloc_and_queue_refused. unfold admits.
    apply Z.eqb_neq in Hm. apply Z.leb_le in Hfull.
    rewrite Hm, Hfull. simpl.
    destruct (flushing s), (is_eos s); reflexivity.
  - intros Hroom Hf He Ha.
    assert (Hadm : admits alloc_ok s = true).
    { unfold admits. apply Z.leb_gt in Hroom.
      rewrite Hf, He, Ha, Hroom, andb_false_r. reflexivity. }
    rewrite (alloc_and_queue_admitted _ _ _ _ _ Hadm). simpl.
    repeat split.
Qed.

(** The scenario of C1 on the code: the third buffer goes in (queue at 600
    bytes), a fourth one is refused. *)
Lemma alloc_and_queue_capacity_gate_witness :
  let s2 := exec [OpQueue true 25 (silence 100) 100;
                  OpQueue true 50 (silence 200) 200]
                 (element_of_capacity 500) in
  let s3 := exec [OpQueue true 75 (silence 300) 300] s2 in
  (fst (gst_spotify_src_alloc_and_queue true 75 (silence 300) 300 s2) = true
   /\ queue (snd (gst_spotify_src_alloc_and_queue true 75 (silence 300) 300 s2))
      = queue s2 ++ [offered_buffer s2 75 (silence 300) 300]
   /\ queued_bytes
        (snd (gst_spotify_src_alloc_and_queue true 75 (silence 300) 300 s2))
      = to_guint64 (queued_bytes s2 + to_guint 300))
  /\ gst_spotify_src_alloc_and_queue true 100 (silence 400) 400 s3
     = (false, s3).
Proof.
  intros s2 s3. split.
  - apply (alloc_and_queue_capacity_gate true 75 (silence 300) 300 s2);
      vm_compute; try reflexivity; discriminate.
  - apply (alloc_and_queue_capacity_gate true 100 (silence 400) 400 s3);
      vm_compute; discriminate.
Defined.

(** ** Delivery *)

Lemma delivery_bufsize_exact (format : sp_audioformat) (n : Z) :
  0 < n < 2 ^ 31 -> 0 <= channels format ->
  n * channels format * 2 < 2 ^ 32 ->
  delivery_bufsize format n = n * channels format * 2.
Proof.
  intros Hn Hc Hfit. unfold delivery_bufsize, to_guint, to_gsize, sizeof_int16.
  rewrite (Z.mod_small (n * 2)) by lia.
  rewrite (Z.mod_small (n * 2 * channels format)) by nia.
  rewrite Z.mod_small by nia. ring.
Qed.

Lemma frames_duration_exact (n : Z) :
  0 <= n < 2 ^ 32 ->
  gst_util_uint64_scale n GST_SECOND 44100 = n * GST_SECOND / 44100.
Proof.
  intro Hn. unfold gst_util_uint64_scale, GST_SECOND, G_MAXUINT64.
  assert (H : n * 1000000000 / 44100 <= 2 ^ 64 - 1).
  { apply Z.lt_le_pred. apply Z.div_lt_upper_bound; lia. }
  apply Z.leb_le in H. rewrite H. reflexivity.
Qed.

Lemma frames_duration_nonneg (n : Z) :
  0 <= gst_util_uint64_scale (to_guint n) GST_SECOND 44100.
Proof.
  pose proof (to_guint_range n) as Hn.
  rewrite frames_duration_exact by exact Hn.
  apply Z.div_pos; unfold GST_SECOND; lia.
Qed.

(** C3, as stated, fails.  Twenty milliseconds of audio delivered at 22050 Hz
    (441 stereo frames) are queued with a duration of ten milliseconds: the
    duration is computed for 44100 Hz whatever [format->sample_rate] says. *)
Lemma duration_ignores_sample_rate :
  let format := {| sample_rate := 22050; channels := 2 |} in
  let s := exec [OpStart true] gst_spotify_src_init in
  exists b,
    trace [OpDelivery true format (silence 1764) 441] s = [Queued b]
    /\ GST_BUFFER_DURATION b = 10000000
    /\ spec_duration format 441 = 20000000
    /\ GST_BUFFER_DURATION b <> spec_duration format 441.
Proof.
  eexists. split; [vm_compute; reflexivity|].
  vm_compute. repeat split. discriminate.
Qed.

(** C3, amended.  For every music-delivery call with [n > 0] frames and [c]
    channels whose byte count [n * c * 2] fits a [guint], if the call
    consumes frames then one buffer went to the tail of the queue: its size
    is [n * c * 2], its duration is [n] seconds over 44100 rounded down to
    the nanosecond (the delivered sample rate is not used), its timestamp is
    the running position at the call, and the running position has advanced
    by that duration (in [guint64]). *)
Theorem music_delivery_stamps_buffer alloc_ok format frames n s :
  0 < n < 2 ^ 31 -> 0 <= channels format ->
  n * channels format * 2 < 2 ^ 32 ->
  fst (spotify_music_delivery_cb alloc_ok format frames n s) <> 0 ->
  exists b,
    queue (snd (spotify_music_delivery_cb alloc_ok format frames n s))
    = queue s ++ [b]
    /\ GST_BUFFER_SIZE b = n * channels format * 2
    /\ GST_BUFFER_DURATION b = n * GST_SECOND / 44100
    /\ GST_BUFFER_TIMESTAMP b = buffer_timestamp s
    /\ buffer_timestamp (snd (spotify_music_delivery_cb alloc_ok format frames n s))
       = to_guint64 (buffer_timestamp s + GST_BUFFER_DURATION b)
    /\ fst (spotify_music_delivery_cb alloc_ok format frames n s) = n.
Proof.
  intros Hn Hc Hfit Hcons.
  unfold spotify_music_delivery_cb in *.
  destruct (n =? 0) eqn:En; [apply Z.eqb_eq in En; lia|].
  destruct (admits alloc_ok s) eqn:Ha.
  - rewrite (alloc_and_queue_admitted _ _ _ _ _ Ha) in *. simpl.
    exists (offered_buffer s n frames (delivery_bufsize format n)).
    unfold offered_buffer, new_buffer; simpl.
    rewrite (delivery_bufsize_exact _ _ Hn Hc Hfit).
    rewrite (to_guint_small n) by lia.
    rewrite (to_guint_small (n * channels format * 2)) by nia.
    rewrite frames_duration_exact by lia.
    repeat split.
  - rewrite (alloc_and_queue_refused _ _ _ _ _ Ha) in Hcons.
    simpl in Hcons. contradiction.
Qed.

Lemma music_delivery_stamps_buffer_witness :
  let format := {| sample_rate := 22050; channels := 2 |} in
  let s := exec [OpStart true] gst_spotify_src_init in
  exists b,
    queue (snd (spotify_music_delivery_cb true format (silence 1764) 441 s))
    = queue s ++ [b]
    /\ GST_BUFFER_SIZE b = 441 * channels format * 2
    /\ GST_BUFFER_DURATION b = 441 * GST_SECOND / 44100
    /\ GST_BUFFER_TIMESTAMP b = buffer_timestamp s
    /\ buffer_timestamp
         (snd (spotify_music_delivery_cb true format (silence 1764) 441 s))
       = to_guint64 (buffer_timestamp s + GST_BUFFER_DURATION b)
    /\ fst (spotify_music_delivery_cb true format (silence 1764) 441 s)
       = 441.
Proof.
  intros format s.
  apply (music_delivery_stamps_buffer true format (silence 1764) 441 s).
  - lia.
  - simpl; lia.
  - simpl; lia.
  - vm_compute. discriminate.
Defined.

(** ** Flushing and end of stream *)

(** C4, as stated, fails.  One buffer of 100 bytes queued, then unlock: the
    next call of create returns the flushing status, but the buffer is still
    queued and [queued_bytes] is still 100. *)
Lemma create_while_flushing_keeps_queue :
  let s1 := exec [OpStart true; OpQueue true 25 (silence 100) 100; OpUnlock]
                 gst_spotify_src_init in
  flushing s1 = true
  /\ fst (gst_spotify_src_create s1) = Returned GST_FLOW_WRONG_STATE None
  /\ map GST_BUFFER_SIZE (queue (snd (gst_spotify_src_create s1))) = [100]
  /\ queued_bytes (snd (gst_spotify_src_create s1)) = 100.
Proof. vm_compute. repeat split. Qed.

(** C4, amended.  After unlock has set [flushing], whatever is queued, the
    next call of create returns the flushing status and no buffer, and
    neither unlock nor that call touches the queue or [queued_bytes]. *)
Theorem unlock_then_create_flushing (s : GstSpotifySrcPrivate) :
  flushing (snd (gst_spotify_src_unlock s)) = true
  /\ gst_spotify_src_create (snd (gst_spotify_src_unlock s))
     = (Returned GST_FLOW_WRONG_STATE None, snd (gst_spotify_src_unlock s))
  /\ queue (snd (gst_spotify_src_unlock s)) = queue s
  /\ queued_bytes (snd (gst_spotify_src_unlock s)) = queued_bytes s.
Proof. repeat split. Qed.

(** C5, as stated, fails.  While the element is flushing the end-of-track
    callback is refused: the flag stays clear and nothing is broadcast. *)
Lemma end_of_track_refused_while_flushing :
  let s := exec [OpStart true; OpUnlock] gst_spotify_src_init in
  flushing s = true
  /\ is_eos (spotify_end_of_track_cb s) = false
  /\ effects (spotify_end_of_track_cb s) = effects s.
Proof. vm_compute. repeat split. Qed.

(** C5, amended.  When the element is not flushing, the end-of-track
    callback sets [is_eos], broadcasts once on the queue's condition and
    leaves the queue and its byte count alone; a call of create that finds
    the queue empty then returns the end-of-stream status.  When the element
    is flushing the callback changes nothing. *)
Theorem end_of_track_sets_eos (s : GstSpotifySrcPrivate) :
  (flushing s = false ->
   is_eos (spotify_end_of_track_cb s) = true
   /\ effects (spotify_end_of_track_cb s) = CondBroadcast :: effects s
   /\ queue (spotify_end_of_track_cb s) = queue s
   /\ queued_bytes (spotify_end_of_track_cb s) = queued_bytes s
   /\ (queue s = [] ->
       gst_spotify_src_create (spotify_end_of_track_cb s)
       = (Returned GST_FLOW_UNEXPECTED None, spotify_end_of_track_cb s)))
  /\ (flushing s = true -> spotify_end_of_track_cb s = s).
Proof.
  unfold spotify_end_of_track_cb, gst_spotify_src_end_of_stream.
  split; intro Hf; rewrite Hf; [|reflexivity].
  repeat split. intro Hq.
  unfold gst_spotify_src_create, create_loop. simpl.
  rewrite Hf, Hq. reflexivity.
Qed.

Lemma end_of_track_sets_eos_witness :
  let s := exec [OpStart true] gst_spotify_src_init in
  let f := exec [OpUnlock] s in
  (is_eos (spotify_end_of_track_cb s) = true
   /\ effects (spotify_end_of_track_cb s) = CondBroadcast :: effects s
   /\ queue (spotify_end_of_track_cb s) = queue s
   /\ queued_bytes (spotify_end_of_track_cb s) = queued_bytes s
   /\ (queue s = [] ->
       gst_spotify_src_create (spotify_end_of_track_cb s)
       = (Returned GST_FLOW_UNEXPECTED None, spotify_end_of_track_cb s)))
  /\ spotify_end_of_track_cb f = f.
Proof.
  intros s f. split.
  - apply (proj1 (end_of_track_sets_eos s)). reflexivity.
  - apply (proj2 (end_of_track_sets_eos f)). reflexivity.
Defined.

Lemma eos_empty_step (o : op) (s : GstSpotifySrcPrivate) :
  plays_on o = true ->
  is_eos s = true -> queue s = [] ->
  is_eos (fst (step o s)) = true /\ queue (fst (step o s)) = [].
Proof.
  intros Ho He Hq.
  destruct o as [a f fr n | a n d sz | | | | | ok | | [|] pos | | ];
    try discriminate Ho; simpl.
  - unfold spotify_music_delivery_cb.
    destruct (n =? 0); [auto|].
    rewrite alloc_and_queue_refused; [auto|].
    unfold admits. rewrite He. destruct (flushing s); reflexivity.
  - rewrite alloc_and_queue_refused; [auto|].
    unfold admits. rewrite He. destruct (flushing s); reflexivity.
  - unfold gst_spotify_src_create, create_loop. rewrite Hq, He.
    destruct (flushing s); auto.
  - unfold create_loop. rewrite Hq, He. destruct (flushing s); auto.
  - auto.
  - auto.
  - unfold gst_spotify_src_do_seek.
    destruct (is_first_seek s && (pos =? 0)); simpl; auto.
  - unfold spotify_end_of_track_cb, gst_spotify_src_end_of_stream.
    destruct (flushing s); auto.
Qed.

Lemma eos_empty_exec (ops : list op) (s : GstSpotifySrcPrivate) :
  Forall (fun o => plays_on o = true) ops ->
  is_eos s = true -> queue s = [] ->
  is_eos (exec ops s) = true /\ queue (exec ops s) = [].
Proof.
  intro Hops. revert s.
  induction Hops as [|o ops Ho _ IH]; intros s He Hq; simpl.
  - auto.
  - destruct (eos_empty_step o s Ho He Hq) as [He' Hq'].
    apply IH; assumption.
Qed.

(** C6.  Take a state in which end of stream has been signalled and the
    queue is empty, and let any operations follow short of a restart (stop,
    start), a seek that the client accepts, or disposal.  Then the flag is still set and the queue
    still empty, so every call of create made while the element is not
    flushing returns the end-of-stream status at once: no buffer, no wait
    (the state, stutter counter included, is returned as it was).  A seek
    that succeeds clears the flag, unless it is the skipped first seek to
    zero; so does the stop that precedes a fresh start. *)
Theorem create_returns_eos_until_restart_or_seek
    (ops : list op) (s : GstSpotifySrcPrivate) (pos : Z) (session_ok : bool) :
  is_eos s = true -> queue s = [] ->
  Forall (fun o => plays_on o = true) ops ->
  flushing (exec ops s) = false ->
  gst_spotify_src_create (exec ops s)
  = (Returned GST_FLOW_UNEXPECTED None, exec ops s)
  /\ is_eos (snd (gst_spotify_src_do_seek true pos (exec ops s)))
     = is_first_seek (exec ops s) && (pos =? 0)
  /\ is_eos (exec [OpStop; OpStart session_ok] (exec ops s)) = false.
Proof.
  intros He Hq Hops Hf.
  destruct (eos_empty_exec ops s Hops He Hq) as [He' Hq'].
  split; [|split].
  - unfold gst_spotify_src_create, create_loop.
    rewrite Hf, Hq', He'. reflexivity.
  - unfold gst_spotify_src_do_seek.
    destruct (is_first_seek (exec ops s) && (pos =? 0)); simpl.
    + exact He'.
    + reflexivity.
  - simpl. destruct session_ok; reflexivity.
Qed.

Lemma create_returns_eos_until_restart_or_seek_witness :
  let s := exec [OpStart true; OpEndOfTrack] gst_spotify_src_init in
  let ops := [OpCreate; OpQueue true 25 (silence 100) 100; OpUnlock;
              OpCreate; OpUnlockStop; OpSeek false 7000000000; OpWake] in
  gst_spotify_src_create (exec ops s)
  = (Returned GST_FLOW_UNEXPECTED None, exec ops s)
  /\ is_eos (snd (gst_spotify_src_do_seek true 5000000000 (exec ops s)))
     = is_first_seek (exec ops s) && (5000000000 =? 0)
  /\ is_eos (exec [OpStop; OpStart true] (exec ops s)) = false.
Proof.
  intros s ops.
  apply (create_returns_eos_until_restart_or_seek ops s 5000000000 true).
  - reflexivity.
  - reflexivity.
  - repeat constructor.
  - reflexivity.
Defined.

(** ** Order of delivery *)

Lemma enqueued_cons (e : event) (es : list event) :
  enqueued (e :: es) = enqueued [e] ++ enqueued es.
Proof. destruct e; reflexivity. Qed.

Lemma delivered_cons (e : event) (es : list event) :
  delivered (e :: es) = delivered [e] ++ delivered es.
Proof. destruct e as [| |[r [b|]|]| |]; reflexivity. Qed.

Lemma fifo_alloc_and_queue alloc_ok n d sz s :
  queue s ++ enqueued
    [if fst (gst_spotify_src_alloc_and_queue alloc_ok n d sz s)
     then Queued (offered_buffer s n d sz) else Refused]
  = queue (snd (gst_spotify_src_alloc_and_queue alloc_ok n d sz s)).
Proof.
  destruct (admits alloc_ok s) eqn:Ha.
  - rewrite (alloc_and_queue_admitted _ _ _ _ _ Ha). reflexivity.
  - rewrite (alloc_and_queue_refused _ _ _ _ _ Ha). simpl. apply app_nil_r.
Qed.

Lemma fifo_create_loop s :
  queue s = delivered [Pulled (fst (create_loop s))]
            ++ queue (snd (create_loop s)).
Proof.
  unfold create_loop. destruct (queue s) as [|b q] eqn:Eq.
  - destruct (flushing s); [|destruct (is_eos s)]; simpl; symmetry; exact Eq.
  - reflexivity.
Qed.

Lemma fifo_step (o : op) (s : GstSpotifySrcPrivate) :
  plays_on o = true ->
  queue s ++ enqueued [snd (step o s)]
  = delivered [snd (step o s)] ++ queue (fst (step o s)).
Proof.
  intro Ho.
  destruct o as [a f fr n | a n d sz | | | | | ok | | [|] pos | | ];
    try discriminate Ho; simpl.
  - unfold spotify_music_delivery_cb.
    destruct (n =? 0) eqn:En; [simpl; apply app_nil_r|].
    pose proof (fifo_alloc_and_queue a n fr (delivery_bufsize f n) s) as H.
    destruct (gst_spotify_src_alloc_and_queue a n fr (delivery_bufsize f n) s)
      as [[|] s']; simpl in *.
    + rewrite En. exact H.
    + exact H.
  - pose proof (fifo_alloc_and_queue a n d sz s) as H.
    destruct (gst_spotify_src_alloc_and_queue a n d sz s) as [[|] s'];
      simpl in *; exact H.
  - unfold gst_spotify_src_create. destruct (flushing s).
    + simpl. apply app_nil_r.
    + pose proof (fifo_create_loop s) as H.
      destruct (create_loop s) as [r s']. simpl in *.
      rewrite app_nil_r. exact H.
  - pose proof (fifo_create_loop s) as H.
    destruct (create_loop s) as [r s']. simpl in *.
    rewrite app_nil_r. exact H.
  - apply app_nil_r.
  - apply app_nil_r.
  - unfold gst_spotify_src_do_seek.
    destruct (is_first_seek s && (pos =? 0)); simpl; apply app_nil_r.
  - unfold spotify_end_of_track_cb, gst_spotify_src_end_of_stream.
    destruct (flushing s); simpl; apply app_nil_r.
Qed.

Lemma fifo_exec (ops : list op) (s : GstSpotifySrcPrivate) :
  Forall (fun o => plays_on o = true) ops ->
  queue s ++ enqueued (trace ops s)
  = delivered (trace ops s) ++ queue (exec ops s).
Proof.
  intro Hops. revert s.
  induction Hops as [|o ops Ho _ IH]; intro s; cbn [exec trace].
  - apply app_nil_r.
  - rewrite enqueued_cons, delivered_cons.
    rewrite app_assoc, (fifo_step o s Ho), <- !app_assoc.
    f_equal. apply IH.
Qed.

(** C7.  In every interleaving of enqueues and dequeues (and of the other
    operations of a run) the buffers that were queued at the start followed
    by the buffers enqueued since, in order of admission, are exactly the
    buffers handed to the consumer, in order of delivery, followed by the
    buffers still queued: nothing is reordered, handed out twice or passed
    over. *)
Theorem buffers_delivered_in_fifo_order
    (ops : list op) (s : GstSpotifySrcPrivate) :
  Forall (fun o => plays_on o = true) ops ->
  queue s ++ enqueued (trace ops s)
  = delivered (trace ops s) ++ queue (exec ops s).
Proof. exact (fifo_exec ops s). Qed.

Lemma buffers_delivered_in_fifo_order_witness :
  let ops := [OpStart true] in
  let run := [OpQueue true 25 (silence 100) 100; OpCreate; OpCreate;
              OpQueue true 50 (silence 200) 200;
              OpQueue true 75 (silence 300) 300; OpWake; OpCreate] in
  let s := exec ops gst_spotify_src_init in
  map GST_BUFFER_SIZE (delivered (trace run s)) = [100; 200; 300]
  /\ queue s ++ enqueued (trace run s)
     = delivered (trace run s) ++ queue (exec run s).
Proof.
  intros ops run s. split.
  - reflexivity.
  - apply (buffers_delivered_in_fifo_order run s). repeat constructor.
Defined.

(** ** Timestamps *)

Lemma follows_mod_prefix (t : Z) (l1 l2 : list GstBuffer) :
  follows_mod t (l1 ++ l2) -> follows_mod t l1.
Proof.
  revert t. induction l1 as [|b l1 IH]; intros t H; simpl in *.
  - exact I.
  - destruct H as [Hb H]. split; [exact Hb | apply IH; exact H].
Qed.

Lemma total_duration_nonneg (l : list GstBuffer) :
  Forall (fun b => 0 <= GST_BUFFER_DURATION b) l -> 0 <= total_duration l.
Proof. induction 1 as [|b l Hb _ IH]; simpl; lia. Qed.

Lemma follows_mod_exact (t : Z) (l : list GstBuffer) :
  Forall (fun b => 0 <= GST_BUFFER_DURATION b) l ->
  0 <= t -> t + total_duration l < 2 ^ 64 ->
  follows_mod t l -> follows t l.
Proof.
  intro Hd. revert t.
  induction Hd as [|b l Hb Hl IH]; intros t Ht Hfit H; simpl in *.
  - exact I.
  - destruct H as [Hts H]. split; [exact Hts|].
    pose proof (total_duration_nonneg l Hl) as Hnn.
    rewrite to_guint64_small in H by lia.
    apply IH; [lia | lia | exact H].
Qed.

Lemma follows_sorted (t : Z) (l : list GstBuffer) :
  Forall (fun b => 0 <= GST_BUFFER_DURATION b) l ->
  follows t l -> Sorted Z.le (map GST_BUFFER_TIMESTAMP l).
Proof.
  intro Hd. revert t.
  induction Hd as [|b l Hb Hl IH]; intros t H; simpl in *.
  - constructor.
  - destruct H as [Hts H]. constructor.
    + exact (IH _ H).
    + destruct l as [|b' l']; simpl in *; constructor.
      destruct H as [Hts' _]. lia.
Qed.

Lemma stamp_alloc_and_queue alloc_ok n d sz s :
  (fst (gst_spotify_src_alloc_and_queue alloc_ok n d sz s) = true
   /\ GST_BUFFER_TIMESTAMP (offered_buffer s n d sz) = buffer_timestamp s
   /\ buffer_timestamp (snd (gst_spotify_src_alloc_and_queue alloc_ok n d sz s))
      = to_guint64 (buffer_timestamp s
                    + GST_BUFFER_DURATION (offered_buffer s n d sz))
   /\ 0 <= GST_BUFFER_DURATION (offered_buffer s n d sz))
  \/ gst_spotify_src_alloc_and_queue alloc_ok n d sz s = (false, s).
Proof.
  destruct (admits alloc_ok s) eqn:Ha.
  - left. rewrite (alloc_and_queue_admitted _ _ _ _ _ Ha). simpl.
    repeat split. apply frames_duration_nonneg.
  - right. apply alloc_and_queue_refused. exact Ha.
Qed.

Lemma create_loop_timestamp s :
  buffer_timestamp (snd (create_loop s)) = buffer_timestamp s.
Proof.
  unfold create_loop. destruct (queue s); [|reflexivity].
  destruct (flushing s); [|destruct (is_eos s)]; reflexivity.
Qed.

Lemma stamp_step (o : op) (s : GstSpotifySrcPrivate) :
  plays_on o = true ->
  match snd (step o s) with
  | Queued b =>
      GST_BUFFER_TIMESTAMP b = buffer_timestamp s
      /\ buffer_timestamp (fst (step o s))
         = to_guint64 (buffer_timestamp s + GST_BUFFER_DURATION b)
      /\ 0 <= GST_BUFFER_DURATION b
  | _ => buffer_timestamp (fst (step o s)) = buffer_timestamp s
  end.
Proof.
  intro Ho.
  destruct o as [a f fr n | a n d sz | | | | | ok | | [|] pos | | ];
    try discriminate Ho; simpl.
  - unfold spotify_music_delivery_cb.
    destruct (n =? 0) eqn:En; [reflexivity|].
    destruct (stamp_alloc_and_queue a n fr (delivery_bufsize f n) s)
      as [(Hok & H) | Hno].
    + destruct (gst_spotify_src_alloc_and_queue a n fr (delivery_bufsize f n) s)
        as [ok s']. simpl in Hok. subst ok. simpl. rewrite En. exact H.
    + rewrite Hno. reflexivity.
  - destruct (stamp_alloc_and_queue a n d sz s) as [(Hok & H) | Hno].
    + destruct (gst_spotify_src_alloc_and_queue a n d sz s) as [ok s'].
      simpl in Hok. subst ok. exact H.
    + rewrite Hno. reflexivity.
  - unfold gst_spotify_src_create. destruct (flushing s); [reflexivity|].
    pose proof (create_loop_timestamp s) as H.
    destruct (create_loop s) as [r s']. exact H.
  - pose proof (create_loop_timestamp s) as H.
    destruct (create_loop s) as [r s']. exact H.
  - reflexivity.
  - reflexivity.
  - unfold gst_spotify_src_do_seek.
    destruct (is_first_seek s && (pos =? 0)); reflexivity.
  - unfold spotify_end_of_track_cb, gst_spotify_src_end_of_stream.
    destruct (flushing s); reflexivity.
Qed.

Lemma stamp_exec (ops : list op) (s : GstSpotifySrcPrivate) :
  Forall (fun o => plays_on o = true) ops ->
  follows_mod (buffer_timestamp s) (enqueued (trace ops s))
  /\ Forall (fun b => 0 <= GST_BUFFER_DURATION b) (enqueued (trace ops s)).
Proof.
  intro Hops. revert s.
  induction Hops as [|o ops Ho _ IH]; intro s; cbn [trace].
  - split; constructor.
  - pose proof (stamp_step o s Ho) as Hs.
    destruct (IH (fst (step o s))) as [Hf Hd].
    destruct (snd (step o s)) as [b| | | |]; simpl;
      try (rewrite Hs in Hf; split; assumption).
    destruct Hs as (Hts & Hnext & Hdur). rewrite Hnext in Hf.
    split; [split; assumption | constructor; assumption].
Qed.

Lemma seek_accepted (pos : Z) (s : GstSpotifySrcPrivate) :
  is_first_seek s && (pos =? 0) = false ->
  gst_spotify_src_do_seek true pos s
  = (true,
     set_buffer_timestamp
       (set_is_eos
          (gst_spotify_src_flush_queued
             (emit s (PlayerSeek (to_gint (Z.quot pos GST_MSECOND)) true)))
          false)
       (to_guint64 pos)).
Proof.
  intro Hg. unfold gst_spotify_src_do_seek. rewrite Hg. reflexivity.
Qed.

(** C8, as stated, fails.  After start the client delivers 441 frames, then
    the pipeline's first seek arrives, to position zero: do_seek reports
    success, and the running position is 10 ms, not the seek target. *)
Lemma first_seek_to_zero_keeps_position :
  let format := {| sample_rate := 44100; channels := 2 |} in
  let s := exec [OpStart true; OpDelivery true format (silence 1764) 441]
                gst_spotify_src_init in
  fst (gst_spotify_src_do_seek true 0 s) = true
  /\ buffer_timestamp (snd (gst_spotify_src_do_seek true 0 s)) = 10000000
  /\ buffer_timestamp (snd (gst_spotify_src_do_seek true 0 s)) <> 0.
Proof. vm_compute. repeat split. discriminate. Qed.

(** C8, amended.  Take a run that begins with an empty queue (as start and
    an accepted seek leave it) and contains no restart, no seek accepted by
    the client and no disposal, and whose running position stays below 2^64
    nanoseconds.  The buffers handed to the consumer form a chain from the
    position the run began at: each buffer's timestamp is its predecessor's
    timestamp plus its predecessor's duration, so the timestamps are
    non-decreasing.  A seek to a target from 0 to 2^63 - 1 that goes to the
    client (it is not the skipped first seek to zero) and is accepted leaves
    the queue empty and the running position equal to the target. *)
Theorem timestamps_chain_until_seek
    (ops : list op) (s : GstSpotifySrcPrivate) (pos : Z) :
  queue s = [] -> 0 <= buffer_timestamp s ->
  Forall (fun o => plays_on o = true) ops ->
  buffer_timestamp s + total_duration (delivered (trace ops s)) < 2 ^ 64 ->
  0 <= pos < 2 ^ 63 ->
  is_first_seek (exec ops s) && (pos =? 0) = false ->
  follows (buffer_timestamp s) (delivered (trace ops s))
  /\ Sorted Z.le (map GST_BUFFER_TIMESTAMP (delivered (trace ops s)))
  /\ fst (gst_spotify_src_do_seek true pos (exec ops s)) = true
  /\ buffer_timestamp (snd (gst_spotify_src_do_seek true pos (exec ops s)))
     = pos
  /\ queue (snd (gst_spotify_src_do_seek true pos (exec ops s))) = [].
Proof.
  intros Hq Ht Hops Hfit Hpos Hg.
  destruct (stamp_exec ops s Hops) as [Hf Hd].
  pose proof (fifo_exec ops s Hops) as Hfifo.
  rewrite Hq in Hfifo. simpl in Hfifo. rewrite Hfifo in Hf, Hd.
  apply follows_mod_prefix in Hf.
  apply Forall_app in Hd as [Hd _].
  pose proof (follows_mod_exact _ _ Hd Ht Hfit Hf) as Hex.
  split; [exact Hex|].
  split; [exact (follows_sorted _ _ Hd Hex)|].
  rewrite (seek_accepted pos _ Hg). simpl.
  split; [reflexivity|].
  split; [apply to_guint64_small; lia | apply flush_loop_nil].
Qed.

Lemma timestamps_chain_until_seek_witness :
  let format := {| sample_rate := 44100; channels := 2 |} in
  let s := exec [OpStart true; OpSeek true 0] gst_spotify_src_init in
  let ops := [OpDelivery true format (silence 1764) 441;
              OpDelivery true format (silence 3528) 882;
              OpCreate;
              OpDelivery true format (silence 1764) 441;
              OpCreate; OpCreate; OpCreate] in
  map GST_BUFFER_TIMESTAMP (delivered (trace ops s))
  = [0; 10000000; 30000000]
  /\ (follows (buffer_timestamp s) (delivered (trace ops s))
      /\ Sorted Z.le (map GST_BUFFER_TIMESTAMP (delivered (trace ops s)))
      /\ fst (gst_spotify_src_do_seek true 0 (exec ops s)) = true
      /\ buffer_timestamp (snd (gst_spotify_src_do_seek true 0 (exec ops s)))
         = 0
      /\ queue (snd (gst_spotify_src_do_seek true 0 (exec ops s))) = []).
Proof.
  intros format s ops. split.
  - reflexivity.
  - apply (timestamps_chain_until_seek ops s 0).
    + reflexivity.
    + vm_compute. discriminate.
    + repeat constructor.
    + vm_compute. reflexivity.
    + lia.
    + reflexivity.
Defined.

(** ** Seeking *)

(** C9.  When do_seek passes the request to the client (it is not the
    skipped first seek to zero) and the client's seek command fails, do_seek
    returns FALSE and the element is as before: the queue is not flushed,
    [queued_bytes], the end-of-stream flag and the running timestamp are
    unchanged, and so are the other flags.  The one trace of the call is the
    command sent to the client, with the target in milliseconds. *)
Theorem failed_seek_changes_nothing (pos : Z) (s : GstSpotifySrcPrivate) :
  is_first_seek s && (pos =? 0) = false ->
  fst (gst_spotify_src_do_seek false pos s) = false
  /\ queue (snd (gst_spotify_src_do_seek false pos s)) = queue s
  /\ queued_bytes (snd (gst_spotify_src_do_seek false pos s)) = queued_bytes s
  /\ is_eos (snd (gst_spotify_src_do_seek false pos s)) = is_eos s
  /\ buffer_timestamp (snd (gst_spotify_src_do_seek false pos s))
     = buffer_timestamp s
  /\ flushing (snd (gst_spotify_src_do_seek false pos s)) = flushing s
  /\ is_first_seek (snd (gst_spotify_src_do_seek false pos s))
     = is_first_seek s
  /\ effects (snd (gst_spotify_src_do_seek false pos s))
     = PlayerSeek (to_gint (Z.quot pos GST_MSECOND)) false :: effects s.
Proof.
  intro Hg. unfold gst_spotify_src_do_seek. rewrite Hg. simpl.
  repeat split.
Qed.

Lemma failed_seek_changes_nothing_witness :
  let format := {| sample_rate := 44100; channels := 2 |} in
  let s := exec [OpStart true; OpDelivery true format (silence 1764) 441;
                 OpEndOfTrack] gst_spotify_src_init in
  map GST_BUFFER_SIZE (queue s) = [1764]
  /\ fst (gst_spotify_src_do_seek false 5000000000 s) = false
  /\ queue (snd (gst_spotify_src_do_seek false 5000000000 s)) = queue s
  /\ queued_bytes (snd (gst_spotify_src_do_seek false 5000000000 s))
     = queued_bytes s
  /\ is_eos (snd (gst_spotify_src_do_seek false 5000000000 s)) = is_eos s
  /\ buffer_timestamp (snd (gst_spotify_src_do_seek false 5000000000 s))
     = buffer_timestamp s
  /\ flushing (snd (gst_spotify_src_do_seek false 5000000000 s)) = flushing s
  /\ is_first_seek (snd (gst_spotify_src_do_seek false 5000000000 s))
     = is_first_seek s
  /\ effects (snd (gst_spotify_src_do_seek false 5000000000 s))
     = PlayerSeek (to_gint (Z.quot 5000000000 GST_MSECOND)) false :: effects s.
Proof.
  intros format s. split.
  - reflexivity.
  - apply (failed_seek_changes_nothing 5000000000 s). reflexivity.
Defined.

Lemma alloc_and_queue_first_seek alloc_ok n d sz s :
  is_first_seek (snd (gst_spotify_src_alloc_and_queue alloc_ok n d sz s))
  = is_first_seek s.
Proof.
  destruct (admits alloc_ok s) eqn:Ha.
  - rewrite (alloc_and_queue_admitted _ _ _ _ _ Ha). reflexivity.
  - rewrite (alloc_and_queue_refused _ _ _ _ _ Ha). reflexivity.
Qed.

Lemma create_loop_first_seek s :
  is_first_seek (snd (create_loop s)) = is_first_seek s.
Proof.
  unfold create_loop. destruct (queue s); [|reflexivity].
  destruct (flushing s); [|destruct (is_eos s)]; reflexivity.
Qed.

(** Only start sets the first-seek flag and only a seek to zero clears it. *)
Lemma first_seek_step (o : op) (s : GstSpotifySrcPrivate) :
  (is_start o = false /\ seeks_to_zero o = false ->
   is_first_seek (fst (step o s)) = is_first_seek s)
  /\ (is_start o = true -> is_first_seek (fst (step o s)) = true)
  /\ (seeks_to_zero o = true -> is_first_seek s = false ->
      is_first_seek (fst (step o s)) = false).
Proof.
  destruct o as [a f fr n | a n d sz | | | | | ok | | ok pos | | ]; simpl;
    (split; [intros [H1 H2] | split; [intro H1 | intros H1 H2]]);
    try discriminate; try reflexivity.
  - unfold spotify_music_delivery_cb. destruct (n =? 0); [reflexivity|].
    pose proof (alloc_and_queue_first_seek a n fr (delivery_bufsize f n) s)
      as H.
    destruct (gst_spotify_src_alloc_and_queue a n fr (delivery_bufsize f n) s)
      as [[|] s']; exact H.
  - pose proof (alloc_and_queue_first_seek a n d sz s) as H.
    destruct (gst_spotify_src_alloc_and_queue a n d sz s) as [r s']. exact H.
  - unfold gst_spotify_src_create. destruct (flushing s); [reflexivity|].
    pose proof (create_loop_first_seek s) as H.
    destruct (create_loop s) as [r s']. exact H.
  - pose proof (create_loop_first_seek s) as H.
    destruct (create_loop s) as [r s']. exact H.
  - unfold gst_spotify_src_start. destruct ok; reflexivity.
  - unfold gst_spotify_src_do_seek. rewrite H2, andb_false_r.
    destruct ok; reflexivity.
  - unfold gst_spotify_src_do_seek. rewrite H2. simpl.
    destruct ok; simpl; exact H2.
  - unfold spotify_end_of_track_cb, gst_spotify_src_end_of_stream.
    destruct (flushing s); reflexivity.
Qed.

Lemma first_seek_pending (ops : list op) (s : GstSpotifySrcPrivate) :
  Forall (fun o => seeks_to_zero o = false) ops ->
  is_first_seek s = true -> is_first_seek (exec ops s) = true.
Proof.
  intro Hops. revert s.
  induction Hops as [|o ops Ho _ IH]; intros s Hs; simpl.
  - exact Hs.
  - apply IH. destruct (first_seek_step o s) as (Hkeep & Hstart & _).
    destruct (is_start o) eqn:Eo.
    + apply Hstart. reflexivity.
    + rewrite Hkeep; [exact Hs | split; [reflexivity | exact Ho]].
Qed.

Lemma first_seek_spent (ops : list op) (s : GstSpotifySrcPrivate) :
  Forall (fun o => is_start o = false) ops ->
  is_first_seek s = false -> is_first_seek (exec ops s) = false.
Proof.
  intro Hops. revert s.
  induction Hops as [|o ops Ho _ IH]; intros s Hs; simpl.
  - exact Hs.
  - apply IH. destruct (first_seek_step o s) as (Hkeep & _ & Hzero).
    destruct (seeks_to_zero o) eqn:Eo.
    + apply Hzero; [reflexivity | exact Hs].
    + rewrite Hkeep; [exact Hs | split; [exact Ho | reflexivity]].
Qed.

(** C10.  Start sets the first-seek flag, whether or not the session comes
    up.  Whatever follows short of a seek to zero, the first do_seek with
    target zero returns TRUE and does nothing but clear the flag: no command
    goes to the client, the queue, [queued_bytes], the end-of-stream flag
    and the running timestamp are as before.  From then on, until the next
    start and as long as the session is there, every do_seek (to zero as
    well) takes the normal path: the command goes to the client with the
    target in milliseconds and the client's verdict is the result; when the
    client accepts, the queue is flushed, [queued_bytes] is zero, the
    end-of-stream flag is clear and the running timestamp is the target;
    when it refuses, they are all as before. *)
Theorem first_seek_to_zero_is_skipped
    (session_ok sp_ok sp_ok' : bool) (before later : list op)
    (s : GstSpotifySrcPrivate) (pos : Z) :
  Forall (fun o => seeks_to_zero o = false) before ->
  Forall (fun o => is_start o = false) later ->
  let s1 := exec before (snd (gst_spotify_src_start session_ok s)) in
  let s2 := exec later (snd (gst_spotify_src_do_seek sp_ok 0 s1)) in
  gst_spotify_src_do_seek sp_ok 0 s1 = (true, set_is_first_seek s1 false)
  /\ effects (snd (gst_spotify_src_do_seek sp_ok 0 s1)) = effects s1
  /\ queue (snd (gst_spotify_src_do_seek sp_ok 0 s1)) = queue s1
  /\ queued_bytes (snd (gst_spotify_src_do_seek sp_ok 0 s1)) = queued_bytes s1
  /\ is_eos (snd (gst_spotify_src_do_seek sp_ok 0 s1)) = is_eos s1
  /\ buffer_timestamp (snd (gst_spotify_src_do_seek sp_ok 0 s1))
     = buffer_timestamp s1
  /\ is_first_seek (snd (gst_spotify_src_do_seek sp_ok 0 s1)) = false
  /\ (session_safe session_ok (before ++ later) = true ->
      session_live session_ok (before ++ later) = true ->
      fst (gst_spotify_src_do_seek sp_ok' pos s2) = sp_ok'
      /\ effects (snd (gst_spotify_src_do_seek sp_ok' pos s2))
         = PlayerSeek (to_gint (Z.quot pos GST_MSECOND)) sp_ok' :: effects s2
      /\ is_first_seek (snd (gst_spotify_src_do_seek sp_ok' pos s2)) = false
      /\ queue (snd (gst_spotify_src_do_seek true pos s2)) = []
      /\ queued_bytes (snd (gst_spotify_src_do_seek true pos s2)) = 0
      /\ is_eos (snd (gst_spotify_src_do_seek true pos s2)) = false
      /\ buffer_timestamp (snd (gst_spotify_src_do_seek true pos s2))
         = to_guint64 pos
      /\ queue (snd (gst_spotify_src_do_seek false pos s2)) = queue s2
      /\ queued_bytes (snd (gst_spotify_src_do_seek false pos s2))
         = queued_bytes s2
      /\ is_eos (snd (gst_spotify_src_do_seek false pos s2)) = is_eos s2
      /\ buffer_timestamp (snd (gst_spotify_src_do_seek false pos s2))
         = buffer_timestamp s2).
Proof.
  intros Hb Hl s1 s2.
  assert (H1 : is_first_seek s1 = true).
  { apply first_seek_pending; [exact Hb|].
    unfold gst_spotify_src_start. destruct session_ok; reflexivity. }
  assert (Hskip : gst_spotify_src_do_seek sp_ok 0 s1
                  = (true, set_is_first_seek s1 false)).
  { unfold gst_spotify_src_do_seek. rewrite H1. reflexivity. }
  assert (H2 : is_first_seek s2 = false).
  { apply first_seek_spent; [exact Hl|]. rewrite Hskip. reflexivity. }
  assert (Hg : is_first_seek s2 && (pos =? 0) = false)
    by (rewrite H2; reflexivity).
  rewrite Hskip. simpl.
  repeat (split; [reflexivity|]).
  intros _ _.
  split; [unfold gst_spotify_src_do_seek; rewrite Hg;
          destruct sp_ok'; reflexivity|].
  split; [unfold gst_spotify_src_do_seek; rewrite Hg;
          destruct sp_ok'; reflexivity|].
  split; [unfold gst_spotify_src_do_seek; rewrite Hg;
          destruct sp_ok'; simpl; exact H2|].
  rewrite (seek_accepted pos s2 Hg). simpl.
  split; [apply flush_loop_nil|].
  repeat (split; [reflexivity|]).
  unfold gst_spotify_src_do_seek. rewrite Hg. simpl.
  repeat split.
Qed.

Lemma first_seek_to_zero_is_skipped_witness :
  let format := {| sample_rate := 44100; channels := 2 |} in
  let before := [OpDelivery true format (silence 1764) 441;
                 OpSeek false 3000000000] in
  let later := [OpCreate; OpSeek true 2000000000;
                OpDelivery true format (silence 1764) 441; OpEndOfTrack] in
  let s1 :=
    exec before (snd (gst_spotify_src_start true gst_spotify_src_init)) in
  let s2 := exec later (snd (gst_spotify_src_do_seek true 0 s1)) in
  (map GST_BUFFER_SIZE (queue s2) = [1764] /\ is_eos s2 = true
   /\ buffer_timestamp s2 = 2010000000)
  /\ gst_spotify_src_do_seek true 0 s1 = (true, set_is_first_seek s1 false)
  /\ effects (snd (gst_spotify_src_do_seek true 0 s1)) = effects s1
  /\ queue (snd (gst_spotify_src_do_seek true 0 s1)) = queue s1
  /\ queued_bytes (snd (gst_spotify_src_do_seek true 0 s1)) = queued_bytes s1
  /\ is_eos (snd (gst_spotify_src_do_seek true 0 s1)) = is_eos s1
  /\ buffer_timestamp (snd (gst_spotify_src_do_seek true 0 s1))
     = buffer_timestamp s1
  /\ is_first_seek (snd (gst_spotify_src_do_seek true 0 s1)) = false
  /\ fst (gst_spotify_src_do_seek true 0 s2) = true
  /\ effects (snd (gst_spotify_src_do_seek true 0 s2))
     = PlayerSeek (to_gint (Z.quot 0 GST_MSECOND)) true :: effects s2
  /\ is_first_seek (snd (gst_spotify_src_do_seek true 0 s2)) = false
  /\ queue (snd (gst_spotify_src_do_seek true 0 s2)) = []
  /\ queued_bytes (snd (gst_spotify_src_do_seek true 0 s2)) = 0
  /\ is_eos (snd (gst_spotify_src_do_seek true 0 s2)) = false
  /\ buffer_timestamp (snd (gst_spotify_src_do_seek true 0 s2))
     = to_guint64 0
  /\ queue (snd (gst_spotify_src_do_seek false 0 s2)) = queue s2
  /\ queued_bytes (snd (gst_spotify_src_do_seek false 0 s2))
     = queued_bytes s2
  /\ is_eos (snd (gst_spotify_src_do_seek false 0 s2)) = is_eos s2
  /\ buffer_timestamp (snd (gst_spotify_src_do_seek false 0 s2))
     = buffer_timestamp s2.
Proof.
  intros format before later s1 s2.
  split; [repeat split|].
  destruct (first_seek_to_zero_is_skipped true true true before later
              gst_spotify_src_init 0) as (A1 & A2 & A3 & A4 & A5 & A6 & A7 & A8);
    [repeat constructor | repeat constructor |].
  repeat (split; [assumption|]).
  apply A8; reflexivity.
Defined.

(** ** Backpressure *)

(** X1.  The delivery callback takes all the frames it is offered or none:
    it returns zero and leaves the element exactly as it was, or it returns
    the frame count and has put one buffer at the tail of the queue.  A call
    with zero frames always does the former. *)
Theorem music_delivery_all_or_nothing alloc_ok format frames n s :
  spotify_music_delivery_cb alloc_ok format frames 0 s = (0, s)
  /\ (spotify_music_delivery_cb alloc_ok format frames n s = (0, s)
      \/ (n <> 0
          /\ fst (spotify_music_delivery_cb alloc_ok format frames n s) = n
          /\ queue (snd (spotify_music_delivery_cb alloc_ok format frames n s))
             = queue s
               ++ [offered_buffer s n frames (delivery_bufsize format n)])).
Proof.
  split; [reflexivity|].
  unfold spotify_music_delivery_cb.
  destruct (n =? 0) eqn:En; [left; reflexivity|].
  destruct (admits alloc_ok s) eqn:Ha.
  - right. rewrite (alloc_and_queue_admitted _ _ _ _ _ Ha). simpl.
    apply Z.eqb_neq in En. repeat split. exact En.
  - left. rewrite (alloc_and_queue_refused _ _ _ _ _ Ha). reflexivity.
Qed.

Lemma delivery_refused_step (o : op) (s : GstSpotifySrcPrivate) :
  flushing s = true \/ is_eos s = true ->
  is_delivery o = true ->
  step o s = (s, Refused).
Proof.
  intros Hs Ho.
  assert (Hno : forall a, admits a s = false).
  { intro a. unfold admits.
    destruct Hs as [Hs | Hs]; rewrite Hs; [reflexivity|].
    destruct (flushing s); reflexivity. }
  destruct o as [a f fr n | a n d sz | | | | | ok | | ok pos | | ];
    try discriminate Ho; simpl.
  - unfold spotify_music_delivery_cb. destruct (n =? 0); [reflexivity|].
    rewrite (alloc_and_queue_refused _ _ _ _ _ (Hno a)). reflexivity.
  - rewrite (alloc_and_queue_refused _ _ _ _ _ (Hno a)). reflexivity.
Qed.

(** X2.  While the element is flushing or at end of stream, no sequence of
    deliveries gets anything in: every one of them is refused and the
    element (queue, byte count, running position, effect log) stays exactly
    as it was. *)
Theorem deliveries_refused_while_flushing_or_eos
    (ops : list op) (s : GstSpotifySrcPrivate) :
  flushing s = true \/ is_eos s = true ->
  Forall (fun o => is_delivery o = true) ops ->
  exec ops s = s /\ Forall (fun e => e = Refused) (trace ops s).
Proof.
  intros Hs Hops.
  induction Hops as [|o ops Ho _ IH]; cbn [exec trace].
  - split; constructor.
  - rewrite (delivery_refused_step o s Hs Ho). simpl.
    destruct IH as [IH1 IH2]. split; [exact IH1 | constructor; auto].
Qed.

Lemma deliveries_refused_while_flushing_or_eos_witness :
  let format := {| sample_rate := 44100; channels := 2 |} in
  let s := exec [OpStart true; OpQueue true 25 (silence 100) 100; OpUnlock]
                gst_spotify_src_init in
  let ops := [OpDelivery true format (silence 1764) 441;
              OpQueue true 50 (silence 200) 200;
              OpDelivery true format [] 0] in
  exec ops s = s /\ Forall (fun e => e = Refused) (trace ops s).
Proof.
  intros format s ops.
  apply (deliveries_refused_while_flushing_or_eos ops s).
  - left. reflexivity.
  - repeat constructor.
Defined.

(** ** How far the queue can overshoot *)

Lemma overshoot_flush (s : GstSpotifySrcPrivate) :
  overshoot_bounded (gst_spotify_src_flush_queued s).
Proof.
  intros q b H. rewrite flush_queued_queue in H.
  destruct q; discriminate H.
Qed.

Lemma overshoot_create_loop (s : GstSpotifySrcPrivate) :
  accounted s -> overshoot_bounded s ->
  overshoot_bounded (snd (create_loop s)).
Proof.
  intros (_ & Hs & _) Hb. unfold create_loop.
  destruct (queue s) as [|h rest] eqn:Eq.
  - destruct (flushing s); [|destruct (is_eos s)]; simpl;
      intros q b H; simpl in H; rewrite Eq in H; destruct q; discriminate H.
  - intros q b H. simpl in H. subst rest.
    inversion Hs as [|? ? Hh _]; subst.
    specialize (Hb (h :: q) b). rewrite Eq in Hb.
    specialize (Hb eq_refl). simpl in Hb. simpl. lia.
Qed.

Lemma overshoot_alloc_and_queue alloc_ok n d sz s :
  accounted s -> overshoot_bounded s ->
  overshoot_bounded (snd (gst_spotify_src_alloc_and_queue alloc_ok n d sz s)).
Proof.
  intros (Hq & _ & Hm & _) Hb.
  destruct (admits alloc_ok s) eqn:Ha.
  - rewrite (alloc_and_queue_admitted _ _ _ _ _ Ha).
    intros q b H. simpl in H. apply app_inj_tail in H as [H _]. subst q.
    simpl. rewrite <- Hq.
    unfold admits in Ha.
    apply andb_prop in Ha as [Ha _]. apply andb_prop in Ha as [_ Ha].
    apply negb_true_iff, andb_false_iff in Ha as [Ha | Ha].
    + apply negb_false_iff, Z.eqb_eq in Ha. lia.
    + apply Z.leb_gt in Ha. exact Ha.
  - rewrite (alloc_and_queue_refused _ _ _ _ _ Ha). exact Hb.
Qed.

Lemma overshoot_step (o : op) (s : GstSpotifySrcPrivate) :
  accounted s -> overshoot_bounded s -> overshoot_bounded (fst (step o s)).
Proof.
  intros Ha Hb.
  destruct o as [a f fr n | a n d sz | | | | | ok | | ok pos | | ]; simpl.
  - unfold spotify_music_delivery_cb. destruct (n =? 0); [exact Hb|].
    pose proof (overshoot_alloc_and_queue a n fr (delivery_bufsize f n) s
                  Ha Hb) as H.
    destruct (gst_spotify_src_alloc_and_queue a n fr (delivery_bufsize f n) s)
      as [[|] s']; exact H.
  - pose proof (overshoot_alloc_and_queue a n d sz s Ha Hb) as H.
    destruct (gst_spotify_src_alloc_and_queue a n d sz s) as [r s']. exact H.
  - unfold gst_spotify_src_create. destruct (flushing s); [exact Hb|].
    pose proof (overshoot_create_loop s Ha Hb) as H.
    destruct (create_loop s) as [r s']. exact H.
  - pose proof (overshoot_create_loop s Ha Hb) as H.
    destruct (create_loop s) as [r s']. exact H.
  - exact Hb.
  - exact Hb.
  - unfold gst_spotify_src_start. destruct ok; exact Hb.
  - intros q b H. simpl in H. rewrite flush_loop_nil in H.
    destruct q; discriminate H.
  - unfold gst_spotify_src_do_seek.
    destruct (is_first_seek s && (pos =? 0)); [exact Hb|].
    destruct ok; simpl; [|exact Hb].
    intros q b H. simpl in H. rewrite flush_loop_nil in H.
    destruct q; discriminate H.
  - unfold spotify_end_of_track_cb, gst_spotify_src_end_of_stream.
    destruct (flushing s); exact Hb.
  - apply overshoot_flush.
Qed.

Lemma overshoot_exec (ops : list op) (s : GstSpotifySrcPrivate) :
  accounted s -> overshoot_bounded s ->
  accounted (exec ops s) /\ overshoot_bounded (exec ops s).
Proof.
  revert s. induction ops as [|o ops IH]; intros s Ha Hb; simpl.
  - split; assumption.
  - apply IH; [apply accounted_step | apply overshoot_step]; assumption.
Qed.

Lemma overshoot_init : overshoot_bounded gst_spotify_src_init.
Proof. intros q b H. destruct q; discriminate H. Qed.

Lemma max_bytes_step (o : op) (s : GstSpotifySrcPrivate) :
  max_bytes (fst (step o s)) = max_bytes s.
Proof.
  destruct o as [a f fr n | a n d sz | | | | | ok | | ok pos | | ]; simpl;
    try reflexivity.
  - unfold spotify_music_delivery_cb. destruct (n =? 0); [reflexivity|].
    destruct (admits a s) eqn:Ha.
    + rewrite (alloc_and_queue_admitted _ _ _ _ _ Ha). reflexivity.
    + rewrite (alloc_and_queue_refused _ _ _ _ _ Ha). reflexivity.
  - destruct (admits a s) eqn:Ha.
    + rewrite (alloc_and_queue_admitted _ _ _ _ _ Ha). reflexivity.
    + rewrite (alloc_and_queue_refused _ _ _ _ _ Ha). reflexivity.
  - unfold gst_spotify_src_create, create_loop.
    destruct (flushing s); [reflexivity|].
    destruct (queue s); [destruct (is_eos s)|]; reflexivity.
  - unfold create_loop.
    destruct (queue s); [|reflexivity].
    destruct (flushing s); [|destruct (is_eos s)]; reflexivity.
  - unfold gst_spotify_src_start. destruct ok; reflexivity.
  - unfold gst_spotify_src_do_seek.
    destruct (is_first_seek s && (pos =? 0)); [reflexivity|].
    destruct ok; reflexivity.
  - unfold spotify_end_of_track_cb, gst_spotify_src_end_of_stream.
    destruct (flushing s); reflexivity.
Qed.

Lemma max_bytes_exec (ops : list op) (s : GstSpotifySrcPrivate) :
  max_bytes (exec ops s) = max_bytes s.
Proof.
  revert s. induction ops as [|o ops IH]; intro s; simpl.
  - reflexivity.
  - rewrite IH. apply max_bytes_step.
Qed.

Lemma queue_last_cases (q : list GstBuffer) :
  q = [] \/ exists q' b, q = q' ++ [b].
Proof.
  destruct q as [|h q]; [left; reflexivity | right].
  destruct (@exists_last _ (h :: q)) as (q' & b & H); [discriminate|].
  exists q', b. exact H.
Qed.

Lemma reachable_bytes_bound (ops : list op) :
  0 <= queued_bytes (exec ops gst_spotify_src_init)
     < DEFAULT_PROP_MAX_BYTES + 2 ^ 32.
Proof.
  destruct (overshoot_exec ops _ accounted_init overshoot_init) as [Ha Hb].
  destruct Ha as (Hq & Hs & _ & _).
  rewrite Hq.
  destruct (queue_last_cases (queue (exec ops gst_spotify_src_init)))
    as [E | (q & b & E)].
  - rewrite E. simpl. unfold DEFAULT_PROP_MAX_BYTES. lia.
  - specialize (Hb q b E). rewrite max_bytes_exec in Hb. simpl in Hb.
    rewrite E in Hs |- *. rewrite queued_sum_app. simpl.
    apply Forall_app in Hs as [Hs Hl]. inversion Hl as [|? ? Hsz _]; subst.
    pose proof (queued_sum_nonneg q Hs).
    unfold DEFAULT_PROP_MAX_BYTES in *. lia.
Qed.

(** X3.  In every state the element can reach from init, the queue without
    its last buffer holds less than the capacity of 1000000 bytes: admission
    looks at the fill level only, so the byte count overshoots the capacity
    by less than the one buffer admitted last. *)
Theorem queue_overshoots_by_one_buffer_at_most
    (ops : list op) (q : list GstBuffer) (b : GstBuffer) :
  queue (exec ops gst_spotify_src_init) = q ++ [b] ->
  queued_sum q < DEFAULT_PROP_MAX_BYTES
  /\ queued_bytes (exec ops gst_spotify_src_init)
     = queued_sum q + GST_BUFFER_SIZE b
  /\ 0 <= GST_BUFFER_SIZE b < 2 ^ 32.
Proof.
  intro E.
  destruct (overshoot_exec ops _ accounted_init overshoot_init) as [Ha Hb].
  destruct Ha as (Hq & Hs & _ & _).
  specialize (Hb q b E). rewrite max_bytes_exec in Hb. simpl in Hb.
  rewrite Hq, E in *. rewrite queued_sum_app. simpl.
  apply Forall_app in Hs as [_ Hl]. inversion Hl as [|? ? Hsz _]; subst.
  unfold DEFAULT_PROP_MAX_BYTES in *. repeat split; lia.
Qed.

Lemma queue_overshoots_by_one_buffer_at_most_witness :
  let ops := [OpStart true; OpQueue true 25 (silence 100) 100;
              OpQueue true 50 (silence 200) 200] in
  let q := [offered_buffer (exec [OpStart true] gst_spotify_src_init)
              25 (silence 100) 100] in
  let b := offered_buffer (exec [OpStart true; OpQueue true 25 (silence 100) 100]
                             gst_spotify_src_init) 50 (silence 200) 200 in
  queued_sum q < DEFAULT_PROP_MAX_BYTES
  /\ queued_bytes (exec ops gst_spotify_src_init)
     = queued_sum q + GST_BUFFER_SIZE b
  /\ 0 <= GST_BUFFER_SIZE b < 2 ^ 32.
Proof.
  intros ops q b.
  apply (queue_overshoots_by_one_buffer_at_most ops q b). reflexivity.
Defined.

(** X4.  The buffer statistics handed back to the client report the queued
    bytes in units of four (one 16-bit stereo frame), and in every state the
    element can reach from init that number fits the [int] it is stored in:
    it is exactly the sum of the sizes of the queued buffers divided by
    four. *)
Theorem buffer_stats_report_queued_frames (ops : list op) :
  stats_samples
    (spotify_get_audio_buffer_stats_cb (exec ops gst_spotify_src_init))
  = queued_sum (queue (exec ops gst_spotify_src_init)) / 4.
Proof.
  pose proof (reachable_bytes_bound ops) as Hb.
  pose proof (accounted_exec ops _ accounted_init) as (Hq & _).
  unfold spotify_get_audio_buffer_stats_cb, sizeof_int16; simpl.
  rewrite <- Hq.
  set (n := queued_bytes (exec ops gst_spotify_src_init)) in *.
  unfold DEFAULT_PROP_MAX_BYTES in Hb.
  assert (Hd : 0 <= n / 4 < 2 ^ 31).
  { split; [apply Z.div_pos; lia | apply Z.div_lt_upper_bound; lia]. }
  change (2 * 2) with 4.
  rewrite to_guint64_small by lia.
  unfold to_gint. rewrite Z.mod_small by lia. lia.
Qed.

(** X5.  Bytes are conserved over a run of playback from any reachable
    state: the byte count at the start plus the sizes of the buffers
    admitted equals the sizes of the buffers handed out plus the byte count
    at the end. *)
Theorem bytes_in_equal_bytes_out_plus_held (before ops : list op) :
  Forall (fun o => plays_on o = true) ops ->
  queued_bytes (exec before gst_spotify_src_init)
  + queued_sum (enqueued (trace ops (exec before gst_spotify_src_init)))
  = queued_sum (delivered (trace ops (exec before gst_spotify_src_init)))
    + queued_bytes (exec ops (exec before gst_spotify_src_init)).
Proof.
  intro Hops.
  pose proof (accounted_exec before _ accounted_init) as Ha.
  pose proof (accounted_exec ops _ Ha) as (Hq' & _).
  destruct Ha as (Hq & _).
  rewrite Hq, Hq', <- !queued_sum_app.
  f_equal. apply fifo_exec. exact Hops.
Qed.

Lemma bytes_in_equal_bytes_out_plus_held_witness :
  let before := [OpStart true; OpQueue true 25 (silence 100) 100] in
  let ops := [OpQueue true 50 (silence 200) 200; OpCreate;
              OpQueue true 75 (silence 300) 300] in
  queued_bytes (exec ops (exec before gst_spotify_src_init)) = 500
  /\ queued_bytes (exec before gst_spotify_src_init)
     + queued_sum (enqueued (trace ops (exec before gst_spotify_src_init)))
     = queued_sum (delivered (trace ops (exec before gst_spotify_src_init)))
       + queued_bytes (exec ops (exec before gst_spotify_src_init)).
Proof.
  intros before ops. split.
  - reflexivity.
  - apply (bytes_in_equal_bytes_out_plus_held before ops). repeat constructor.
Defined.

(** X6.  The duration stamped on a buffer is its frame count at 44100 Hz
    rounded down to the nanosecond: it never exceeds the true length and
    falls short of it by less than one nanosecond. *)
Theorem buffer_duration_rounds_down n d sz s :
  44100 * GST_BUFFER_DURATION (offered_buffer s n d sz)
  <= to_guint n * GST_SECOND
  /\ to_guint n * GST_SECOND
     < 44100 * (GST_BUFFER_DURATION (offered_buffer s n d sz) + 1).
Proof.
  unfold offered_buffer, new_buffer; cbn [GST_BUFFER_DURATION].
  rewrite frames_duration_exact by apply to_guint_range.
  pose proof (to_guint_range n) as Hn.
  split.
  - apply Z.mul_div_le. lia.
  - apply Z.mul_succ_div_gt. lia.
Qed.

(** ** The stutter counter and wake-ups *)

Lemma to_guint64_idem_l (a b : Z) :
  to_guint64 (to_guint64 a + b) = to_guint64 (a + b).
Proof. unfold to_guint64. apply Zplus_mod_idemp_l. Qed.

Lemma waits_cons (e : event) (es : list event) :
  waits (e :: es) = waits [e] + waits es.
Proof. destruct e as [| |[r b|]| |]; simpl; lia. Qed.

Lemma create_loop_stutter (s : GstSpotifySrcPrivate) :
  stutter (snd (create_loop s))
  = to_guint64 (to_guint64 (stutter s) + waits [Pulled (fst (create_loop s))])
  \/ (stutter (snd (create_loop s)) = stutter s
      /\ waits [Pulled (fst (create_loop s))] = 0).
Proof.
  unfold create_loop. destruct (queue s); [|right; split; reflexivity].
  destruct (flushing s); [right; split; reflexivity|].
  destruct (is_eos s); [right; split; reflexivity|].
  left. simpl. rewrite to_guint64_idem_l. reflexivity.
Qed.

Lemma stutter_step (o : op) (s : GstSpotifySrcPrivate) :
  is_start o = false ->
  to_guint64 (stutter (fst (step o s)))
  = to_guint64 (stutter s + waits [snd (step o s)]).
Proof.
  intro Ho.
  assert (Hsame : forall x, to_guint64 x = to_guint64 (x + 0))
    by (intro x; f_equal; lia).
  destruct o as [a f fr n | a n d sz | | | | | ok | | ok pos | | ];
    try discriminate Ho; simpl.
  - unfold spotify_music_delivery_cb. destruct (n =? 0); [apply Hsame|].
    destruct (admits a s) eqn:Ha.
    + rewrite (alloc_and_queue_admitted _ _ _ _ _ Ha). simpl.
      destruct (n =? 0); apply Hsame.
    + rewrite (alloc_and_queue_refused _ _ _ _ _ Ha). apply Hsame.
  - destruct (admits a s) eqn:Ha.
    + rewrite (alloc_and_queue_admitted _ _ _ _ _ Ha). apply Hsame.
    + rewrite (alloc_and_queue_refused _ _ _ _ _ Ha). apply Hsame.
  - unfold gst_spotify_src_create. destruct (flushing s); [apply Hsame|].
    pose proof (create_loop_stutter s) as H.
    destruct (create_loop s) as [r s']. simpl in *.
    destruct H as [H | [H Hw]].
    + rewrite H, to_guint64_idem_l.
      unfold to_guint64. rewrite Zmod_mod. reflexivity.
    + rewrite H, Hw. apply Hsame.
  - pose proof (create_loop_stutter s) as H.
    destruct (create_loop s) as [r s']. simpl in *.
    destruct H as [H | [H Hw]].
    + rewrite H, to_guint64_idem_l.
      unfold to_guint64. rewrite Zmod_mod. reflexivity.
    + rewrite H, Hw. apply Hsame.
  - apply Hsame.
  - apply Hsame.
  - apply Hsame.
  - unfold gst_spotify_src_do_seek.
    destruct (is_first_seek s && (pos =? 0)); [apply Hsame|].
    destruct ok; apply Hsame.
  - unfold spotify_end_of_track_cb, gst_spotify_src_end_of_stream.
    destruct (flushing s); apply Hsame.
  - apply Hsame.
Qed.

Lemma stutter_exec (ops : list op) (s : GstSpotifySrcPrivate) :
  Forall (fun o => is_start o = false) ops ->
  to_guint64 (stutter (exec ops s))
  = to_guint64 (stutter s + waits (trace ops s)).
Proof.
  intro Hops. revert s.
  induction Hops as [|o ops Ho _ IH]; intro s; cbn [exec trace].
  - f_equal. simpl. lia.
  - rewrite IH, waits_cons.
    rewrite <- to_guint64_idem_l, (stutter_step o s Ho), to_guint64_idem_l.
    f_equal. lia.
Qed.

Lemma stutter_range_step (o : op) (s : GstSpotifySrcPrivate) :
  0 <= stutter s < 2 ^ 64 -> 0 <= stutter (fst (step o s)) < 2 ^ 64.
Proof.
  intro Hr.
  destruct o as [a f fr n | a n d sz | | | | | ok | | ok pos | | ]; simpl;
    try exact Hr.
  - unfold spotify_music_delivery_cb. destruct (n =? 0); [exact Hr|].
    destruct (admits a s) eqn:Ha.
    + rewrite (alloc_and_queue_admitted _ _ _ _ _ Ha). exact Hr.
    + rewrite (alloc_and_queue_refused _ _ _ _ _ Ha). exact Hr.
  - destruct (admits a s) eqn:Ha.
    + rewrite (alloc_and_queue_admitted _ _ _ _ _ Ha). exact Hr.
    + rewrite (alloc_and_queue_refused _ _ _ _ _ Ha). exact Hr.
  - unfold gst_spotify_src_create, create_loop.
    destruct (flushing s); [exact Hr|].
    destruct (queue s); [|exact Hr].
    destruct (is_eos s); [exact Hr|]. simpl. apply to_guint64_range.
  - unfold create_loop. destruct (queue s); [|exact Hr].
    destruct (flushing s); [exact Hr|].
    destruct (is_eos s); [exact Hr|]. simpl. apply to_guint64_range.
  - unfold gst_spotify_src_start. destruct ok; simpl; lia.
  - unfold gst_spotify_src_do_seek.
    destruct (is_first_seek s && (pos =? 0)); [exact Hr|].
    destruct ok; exact Hr.
  - unfold spotify_end_of_track_cb, gst_spotify_src_end_of_stream.
    destruct (flushing s); exact Hr.
Qed.

Lemma stutter_range_exec (ops : list op) (s : GstSpotifySrcPrivate) :
  0 <= stutter s < 2 ^ 64 -> 0 <= stutter (exec ops s) < 2 ^ 64.
Proof.
  revert s. induction ops as [|o ops IH]; intros s Hr; simpl.
  - exact Hr.
  - apply IH, stutter_range_step, Hr.
Qed.

(** X7.  The stutter counter counts the times a call of create has parked
    since the last start: after start and any run without another start it
    equals the number of waits of that run (modulo 2^64). *)
Theorem stutter_counts_waits_since_start
    (session_ok : bool) (ops : list op) (s : GstSpotifySrcPrivate) :
  Forall (fun o => is_start o = false) ops ->
  stutter (exec ops (snd (gst_spotify_src_start session_ok s)))
  = to_guint64
      (waits (trace ops (snd (gst_spotify_src_start session_ok s)))).
Proof.
  intro Hops.
  set (s0 := snd (gst_spotify_src_start session_ok s)).
  assert (H0 : stutter s0 = 0).
  { unfold s0, gst_spotify_src_start. destruct session_ok; reflexivity. }
  pose proof (stutter_exec ops s0 Hops) as H. rewrite H0 in H. simpl in H.
  rewrite <- H. symmetry. apply to_guint64_small.
  apply stutter_range_exec. rewrite H0. lia.
Qed.

Lemma stutter_counts_waits_since_start_witness :
  let ops := [OpCreate; OpWake; OpQueue true 25 (silence 100) 100; OpWake;
              OpCreate; OpEndOfTrack; OpCreate] in
  stutter (exec ops (snd (gst_spotify_src_start true gst_spotify_src_init)))
  = 3
  /\ stutter (exec ops (snd (gst_spotify_src_start true gst_spotify_src_init)))
     = to_guint64
         (waits (trace ops
                   (snd (gst_spotify_src_start true gst_spotify_src_init)))).
Proof.
  intro ops. split.
  - reflexivity.
  - apply (stutter_counts_waits_since_start true ops gst_spotify_src_init).
    repeat constructor.
Defined.

(** X8.  No wake-up is lost to a parked call of create, stop apart: if the
    loop of create would park in a state and would no longer park after an
    operation other than stop, then the last thing that operation did was to
    broadcast on the queue's condition. *)
Theorem parked_create_is_woken (o : op) (s : GstSpotifySrcPrivate) :
  fst (create_loop s) = CondWait ->
  fst (create_loop (fst (step o s))) <> CondWait ->
  o <> OpStop ->
  exists l, effects (fst (step o s)) = CondBroadcast :: l.
Proof.
  intros Hpark Hrun Hstop.
  assert (Hp : queue s = [] /\ flushing s = false /\ is_eos s = false).
  { unfold create_loop in Hpark. destruct (queue s); [|discriminate Hpark].
    destruct (flushing s); [discriminate Hpark|].
    destruct (is_eos s); [discriminate Hpark|]. auto. }
  destruct Hp as (Hq & Hf & He).
  assert (Hstill : forall s', queue s' = [] -> flushing s' = false ->
                              is_eos s' = false ->
                              fst (create_loop s') = CondWait).
  { intros s' H1 H2 H3. unfold create_loop. rewrite H1, H2, H3. reflexivity. }
  destruct o as [a f fr n | a n d sz | | | | | ok | | ok pos | | ];
    simpl in *.
  - unfold spotify_music_delivery_cb in *.
    destruct (n =? 0); [contradiction (Hrun Hpark)|].
    destruct (admits a s) eqn:Ha.
    + rewrite (alloc_and_queue_admitted _ _ _ _ _ Ha). simpl. eauto.
    + rewrite (alloc_and_queue_refused _ _ _ _ _ Ha) in Hrun.
      contradiction (Hrun Hpark).
  - destruct (admits a s) eqn:Ha.
    + rewrite (alloc_and_queue_admitted _ _ _ _ _ Ha). simpl. eauto.
    + rewrite (alloc_and_queue_refused _ _ _ _ _ Ha) in Hrun.
      contradiction (Hrun Hpark).
  - exfalso. apply Hrun.
    unfold gst_spotify_src_create, create_loop. rewrite Hf, Hq, He.
    apply Hstill; assumption.
  - exfalso. apply Hrun.
    unfold create_loop at 2. rewrite Hq, Hf, He. apply Hstill; assumption.
  - eauto.
  - eauto.
  - exfalso. apply Hrun. unfold gst_spotify_src_start.
    destruct ok; apply Hstill; simpl; auto.
  - contradiction Hstop. reflexivity.
  - exfalso. apply Hrun. unfold gst_spotify_src_do_seek.
    destruct (is_first_seek s && (pos =? 0)); [apply Hstill; assumption|].
    destruct ok; apply Hstill; simpl; try assumption.
    + apply flush_loop_nil.
    + reflexivity.
  - unfold spotify_end_of_track_cb, gst_spotify_src_end_of_stream.
    rewrite Hf. simpl. eauto.
  - exfalso. apply Hrun. apply Hstill; simpl; try assumption.
    apply flush_loop_nil.
Qed.

Lemma parked_create_is_woken_witness :
  let s := exec [OpStart true; OpCreate] gst_spotify_src_init in
  exists l, effects (fst (step OpEndOfTrack s)) = CondBroadcast :: l.
Proof.
  intro s. apply (parked_create_is_woken OpEndOfTrack s).
  - reflexivity.
  - vm_compute. discriminate.
  - discriminate.
Defined.

(** X9.  Stop is the exception: it sets the flushing flag, which a parked
    create would act on, but it does not broadcast.  Its only outward calls
    are the player stop and the session teardown. *)
Theorem stop_does_not_broadcast (s : GstSpotifySrcPrivate) :
  effects (snd (gst_spotify_src_stop s))
  = SessionDestroy :: PlayerStop :: effects s
  /\ fst (create_loop (snd (gst_spotify_src_stop s)))
     = Returned GST_FLOW_WRONG_STATE None.
Proof.
  split; [reflexivity|].
  unfold create_loop, gst_spotify_src_stop. simpl.
  rewrite flush_loop_nil. reflexivity.
Qed.

(** ** Draining, stopping and seeking *)

Lemma drain_queue (q : list GstBuffer) :
  forall s, queue s = q -> flushing s = false ->
  delivered (trace (repeat OpCreate (length q)) s) = q
  /\ queue (exec (repeat OpCreate (length q)) s) = []
  /\ flushing (exec (repeat OpCreate (length q)) s) = false
  /\ is_eos (exec (repeat OpCreate (length q)) s) = is_eos s
  /\ buffer_timestamp (exec (repeat OpCreate (length q)) s)
     = buffer_timestamp s.
Proof.
  induction q as [|b q IH]; intros s Hq Hf.
  - simpl. auto.
  - cbn [length repeat exec trace].
    assert (Hstep : step OpCreate s
                    = (emit (set_queued_bytes (set_queue s q)
                               (to_guint64 (queued_bytes s
                                            - to_guint (GST_BUFFER_SIZE b))))
                            CondBroadcast,
                       Pulled (Returned GST_FLOW_OK (Some b)))).
    { simpl. unfold gst_spotify_src_create, create_loop.
      rewrite Hf, Hq. reflexivity. }
    rewrite Hstep. cbn [fst snd delivered].
    set (s1 := emit _ CondBroadcast).
    destruct (IH s1) as (H1 & H2 & H3 & H4 & H5);
      [reflexivity | exact Hf |].
    rewrite H1, H2, H3, H4, H5. repeat split.
Qed.

(** X10.  A run of as many calls of create as there are buffers queued, on
    an element that is not flushing, hands out exactly the queued buffers in
    queue order and leaves the queue empty; the next call returns the
    end-of-stream status if end of stream was signalled and parks
    otherwise.  End of stream thus lets the buffered data drain first. *)
Theorem creates_drain_the_queue (s : GstSpotifySrcPrivate) :
  flushing s = false ->
  delivered (trace (repeat OpCreate (length (queue s))) s) = queue s
  /\ queue (exec (repeat OpCreate (length (queue s))) s) = []
  /\ fst (gst_spotify_src_create
            (exec (repeat OpCreate (length (queue s))) s))
     = (if is_eos s then Returned GST_FLOW_UNEXPECTED None else CondWait).
Proof.
  intro Hf.
  destruct (drain_queue (queue s) s eq_refl Hf) as (H1 & H2 & H3 & H4 & _).
  split; [exact H1|]. split; [exact H2|].
  unfold gst_spotify_src_create, create_loop. rewrite H3, H2, H4.
  destruct (is_eos s); reflexivity.
Qed.

Lemma creates_drain_the_queue_witness :
  let s := exec [OpStart true; OpQueue true 25 (silence 100) 100;
                 OpQueue true 50 (silence 200) 200; OpEndOfTrack]
                gst_spotify_src_init in
  delivered (trace (repeat OpCreate (length (queue s))) s) = queue s
  /\ queue (exec (repeat OpCreate (length (queue s))) s) = []
  /\ fst (gst_spotify_src_create
            (exec (repeat OpCreate (length (queue s))) s))
     = (if is_eos s then Returned GST_FLOW_UNEXPECTED None else CondWait).
Proof.
  intro s. apply (creates_drain_the_queue s). reflexivity.
Defined.

Lemma shut_step (o : op) (s : GstSpotifySrcPrivate) :
  reopens o = false ->
  flushing s = true -> queue s = [] -> queued_bytes s = 0 ->
  flushing (fst (step o s)) = true /\ queue (fst (step o s)) = []
  /\ queued_bytes (fst (step o s)) = 0
  /\ enqueued [snd (step o s)] = [] /\ delivered [snd (step o s)] = [].
Proof.
  intros Ho Hf Hq Hb.
  destruct o as [a f fr n | a n d sz | | | | | ok | | ok pos | | ];
    try discriminate Ho.
  - rewrite delivery_refused_step; simpl; auto.
  - rewrite delivery_refused_step; simpl; auto.
  - simpl. unfold gst_spotify_src_create. rewrite Hf. simpl. auto.
  - simpl. unfold create_loop. rewrite Hq, Hf. simpl. auto.
  - simpl. auto.
  - simpl. rewrite flush_loop_nil. auto.
  - simpl. unfold gst_spotify_src_do_seek.
    destruct (is_first_seek s && (pos =? 0)); [simpl; auto|].
    destruct ok; simpl; [rewrite flush_loop_nil|]; auto.
  - simpl. unfold spotify_end_of_track_cb, gst_spotify_src_end_of_stream.
    rewrite Hf. auto.
  - simpl. rewrite flush_loop_nil. auto.
Qed.

Lemma shut_exec (ops : list op) (s0 : GstSpotifySrcPrivate) :
  Forall (fun o => reopens o = false) ops ->
  flushing s0 = true -> queue s0 = [] -> queued_bytes s0 = 0 ->
  flushing (exec ops s0) = true
  /\ queue (exec ops s0) = []
  /\ queued_bytes (exec ops s0) = 0
  /\ enqueued (trace ops s0) = []
  /\ delivered (trace ops s0) = []
  /\ gst_spotify_src_create (exec ops s0)
     = (Returned GST_FLOW_WRONG_STATE None, exec ops s0).
Proof.
  intro Hops. revert s0.
  induction Hops as [|o ops Ho _ IH]; intros s0 Hf Hq Hb; cbn [exec trace].
  - repeat split; auto. unfold gst_spotify_src_create. rewrite Hf. reflexivity.
  - destruct (shut_step o s0 Ho Hf Hq Hb) as (Hf' & Hq' & Hb' & He & Hd).
    destruct (IH _ Hf' Hq' Hb') as (I1 & I2 & I3 & I4 & I5 & I6).
    rewrite enqueued_cons, delivered_cons, He, Hd, I4, I5.
    repeat split; auto.
Qed.

(** X11.  Take a run from init that reads the session only while there is
    one and ends with a session up, and stop the element.  Until start or
    unlock-stop reopens it, whatever else is called that needs no session
    (deliveries, create and its wake-ups, unlock, end of track, disposal),
    the flushing flag stays set, the queue stays empty with a byte count of
    zero, no delivery is admitted, no buffer is handed out, and a call of
    create returns the flushing status. *)
Theorem stopped_element_stays_shut (before ops : list op) :
  session_safe false before = true ->
  session_live false before = true ->
  Forall (fun o => reopens o = false /\ uses_session o = false) ops ->
  flushing
    (exec ops (snd (gst_spotify_src_stop (exec before gst_spotify_src_init))))
  = true
  /\ queue
       (exec ops
          (snd (gst_spotify_src_stop (exec before gst_spotify_src_init))))
     = []
  /\ queued_bytes
       (exec ops
          (snd (gst_spotify_src_stop (exec before gst_spotify_src_init))))
     = 0
  /\ enqueued
       (trace ops
          (snd (gst_spotify_src_stop (exec before gst_spotify_src_init))))
     = []
  /\ delivered
       (trace ops
          (snd (gst_spotify_src_stop (exec before gst_spotify_src_init))))
     = []
  /\ gst_spotify_src_create
       (exec ops
          (snd (gst_spotify_src_stop (exec before gst_spotify_src_init))))
     = (Returned GST_FLOW_WRONG_STATE None,
        exec ops
          (snd (gst_spotify_src_stop (exec before gst_spotify_src_init)))).
Proof.
  intros _ _ Hops.
  apply shut_exec.
  - apply Forall_impl with (2 := Hops). intros o [H _]. exact H.
  - reflexivity.
  - simpl. apply flush_loop_nil.
  - reflexivity.
Qed.

Lemma stopped_element_stays_shut_witness :
  let format := {| sample_rate := 44100; channels := 2 |} in
  let before := [OpStart true; OpQueue true 25 (silence 100) 100] in
  let ops := [OpDelivery true format (silence 1764) 441; OpCreate; OpWake;
              OpEndOfTrack; OpUnlock; OpFlush] in
  map GST_BUFFER_SIZE (queue (exec before gst_spotify_src_init)) = [100]
  /\ flushing
       (exec ops
          (snd (gst_spotify_src_stop (exec before gst_spotify_src_init))))
     = true
  /\ queue
       (exec ops
          (snd (gst_spotify_src_stop (exec before gst_spotify_src_init))))
     = []
  /\ queued_bytes
       (exec ops
          (snd (gst_spotify_src_stop (exec before gst_spotify_src_init))))
     = 0
  /\ enqueued
       (trace ops
          (snd (gst_spotify_src_stop (exec before gst_spotify_src_init))))
     = []
  /\ delivered
       (trace ops
          (snd (gst_spotify_src_stop (exec before gst_spotify_src_init))))
     = []
  /\ gst_spotify_src_create
       (exec ops
          (snd (gst_spotify_src_stop (exec before gst_spotify_src_init))))
     = (Returned GST_FLOW_WRONG_STATE None,
        exec ops
          (snd (gst_spotify_src_stop (exec before gst_spotify_src_init)))).
Proof.
  intros format before ops. split; [reflexivity|].
  apply (stopped_element_stays_shut before ops).
  - reflexivity.
  - reflexivity.
  - repeat constructor.
Defined.

(** X12.  A seek that the client accepts is a cut: of the buffers queued
    before it none is ever handed out, the buffers handed out afterwards are
    exactly the first of those admitted afterwards, in order, and their
    timestamps form a chain (in [guint64]) that starts at the seek
    target. *)
Theorem accepted_seek_discards_queued_buffers
    (pos : Z) (s : GstSpotifySrcPrivate) (ops : list op) :
  is_first_seek s && (pos =? 0) = false ->
  0 <= pos < 2 ^ 63 ->
  Forall (fun o => plays_on o = true) ops ->
  delivered (trace ops (snd (gst_spotify_src_do_seek true pos s)))
  ++ queue (exec ops (snd (gst_spotify_src_do_seek true pos s)))
  = enqueued (trace ops (snd (gst_spotify_src_do_seek true pos s)))
  /\ follows_mod pos
       (delivered (trace ops (snd (gst_spotify_src_do_seek true pos s)))).
Proof.
  intros Hg Hpos Hops.
  rewrite (seek_accepted pos s Hg). cbn [snd].
  set (s' := set_buffer_timestamp _ _).
  assert (Hq : queue s' = []) by (unfold s'; simpl; apply flush_loop_nil).
  assert (Ht : buffer_timestamp s' = pos)
    by (unfold s'; simpl; apply to_guint64_small; lia).
  pose proof (fifo_exec ops s' Hops) as Hfifo.
  rewrite Hq in Hfifo. simpl in Hfifo.
  split; [symmetry; exact Hfifo|].
  destruct (stamp_exec ops s' Hops) as [Hf _].
  rewrite Ht, Hfifo in Hf. exact (follows_mod_prefix _ _ _ Hf).
Qed.

Lemma accepted_seek_discards_queued_buffers_witness :
  let format := {| sample_rate := 44100; channels := 2 |} in
  let s := exec [OpStart true; OpDelivery true format (silence 1764) 441]
                gst_spotify_src_init in
  let ops := [OpCreate; OpDelivery true format (silence 1764) 441; OpWake] in
  map GST_BUFFER_TIMESTAMP
    (delivered (trace ops (snd (gst_spotify_src_do_seek true 5000000000 s))))
  = [5000000000]
  /\ (delivered (trace ops (snd (gst_spotify_src_do_seek true 5000000000 s)))
      ++ queue (exec ops (snd (gst_spotify_src_do_seek true 5000000000 s)))
      = enqueued (trace ops (snd (gst_spotify_src_do_seek true 5000000000 s)))
      /\ follows_mod 5000000000
           (delivered
              (trace ops (snd (gst_spotify_src_do_seek true 5000000000 s))))).
Proof.
  intros format s ops. split.
  - reflexivity.
  - apply (accepted_seek_discards_queued_buffers 5000000000 s ops).
    + reflexivity.
    + lia.
    + repeat constructor.
Defined.

Lemma position_exec (ops : list op) (s : GstSpotifySrcPrivate) :
  Forall (fun o => plays_on o = true) ops ->
  to_guint64 (buffer_timestamp (exec ops s))
  = to_guint64 (buffer_timestamp s
                + total_duration (enqueued (trace ops s))).
Proof.
  intro Hops. revert s.
  induction Hops as [|o ops Ho _ IH]; intro s; cbn [exec trace].
  - f_equal. simpl. lia.
  - rewrite IH. pose proof (stamp_step o s Ho) as Hs.
    destruct (snd (step o s)) as [b| | | |]; simpl;
      try (rewrite Hs; reflexivity).
    destruct Hs as (_ & Hnext & _). rewrite Hnext, to_guint64_idem_l.
    f_equal. lia.
Qed.

Lemma position_range_exec (ops : list op) (s : GstSpotifySrcPrivate) :
  Forall (fun o => plays_on o = true) ops ->
  0 <= buffer_timestamp s < 2 ^ 64 ->
  0 <= buffer_timestamp (exec ops s) < 2 ^ 64.
Proof.
  intro Hops. revert s.
  induction Hops as [|o ops Ho _ IH]; intros s Hr; cbn [exec].
  - exact Hr.
  - apply IH. pose proof (stamp_step o s Ho) as Hs.
    destruct (snd (step o s)) as [b| | | |]; try (rewrite Hs; exact Hr).
    destruct Hs as (_ & Hnext & _). rewrite Hnext. apply to_guint64_range.
Qed.

(** X13.  The running playback position is the sum of the durations of the
    buffers admitted since start (modulo 2^64): refused deliveries, pulls,
    unlocks and refused seeks do not move it. *)
Theorem position_is_sum_of_admitted_durations
    (session_ok : bool) (ops : list op) (s : GstSpotifySrcPrivate) :
  Forall (fun o => plays_on o = true) ops ->
  buffer_timestamp (exec ops (snd (gst_spotify_src_start session_ok s)))
  = to_guint64
      (total_duration
         (enqueued (trace ops (snd (gst_spotify_src_start session_ok s))))).
Proof.
  intro Hops.
  set (s0 := snd (gst_spotify_src_start session_ok s)).
  assert (H0 : buffer_timestamp s0 = 0).
  { unfold s0, gst_spotify_src_start. destruct session_ok; reflexivity. }
  pose proof (position_exec ops s0 Hops) as H. rewrite H0 in H. simpl in H.
  rewrite <- H. symmetry. apply to_guint64_small.
  apply position_range_exec; [exact Hops | rewrite H0; lia].
Qed.

Lemma position_is_sum_of_admitted_durations_witness :
  let format := {| sample_rate := 44100; channels := 2 |} in
  let ops := [OpDelivery true format (silence 1764) 441; OpUnlock;
              OpDelivery true format (silence 1764) 441; OpUnlockStop;
              OpCreate; OpDelivery true format (silence 3528) 882;
              OpSeek false 0] in
  buffer_timestamp
    (exec ops (snd (gst_spotify_src_start true gst_spotify_src_init)))
  = 30000000
  /\ buffer_timestamp
       (exec ops (snd (gst_spotify_src_start true gst_spotify_src_init)))
     = to_guint64
         (total_duration
            (enqueued
               (trace ops
                  (snd (gst_spotify_src_start true gst_spotify_src_init))))).
Proof.
  intro format. intro ops. split.
  - reflexivity.
  - apply (position_is_sum_of_admitted_durations true ops
             gst_spotify_src_init).
    repeat constructor.
Defined.

(** X14.  For a target below 2^31 milliseconds, a seek that goes to the
    client asks it for the target in whole milliseconds, rounded down, while
    an accepted seek sets the running position to the target itself, to the
    nanosecond. *)
Theorem seek_command_in_milliseconds
    (sp_ok : bool) (pos : Z) (s : GstSpotifySrcPrivate) :
  is_first_seek s && (pos =? 0) = false ->
  0 <= pos < 2 ^ 31 * GST_MSECOND ->
  effects (snd (gst_spotify_src_do_seek sp_ok pos s))
  = PlayerSeek (pos / GST_MSECOND) sp_ok :: effects s
  /\ buffer_timestamp (snd (gst_spotify_src_do_seek true pos s)) = pos.
Proof.
  intros Hg Hpos.
  assert (Hms : to_gint (Z.quot pos GST_MSECOND) = pos / GST_MSECOND).
  { unfold GST_MSECOND in *. rewrite Z.quot_div_nonneg by lia.
    assert (0 <= pos / 1000000 < 2 ^ 31).
    { split; [apply Z.div_pos; lia | apply Z.div_lt_upper_bound; lia]. }
    unfold to_gint. rewrite Z.mod_small by lia. lia. }
  split.
  - unfold gst_spotify_src_do_seek, spotify_seek. rewrite Hg, Hms.
    destruct sp_ok; reflexivity.
  - rewrite (seek_accepted pos s Hg). simpl.
    apply to_guint64_small. unfold GST_MSECOND in Hpos. lia.
Qed.

Lemma seek_command_in_milliseconds_witness :
  let s := exec [OpStart true; OpSeek true 0] gst_spotify_src_init in
  effects (snd (gst_spotify_src_do_seek true 61234567890 s))
  = PlayerSeek (61234567890 / GST_MSECOND) true :: effects s
  /\ buffer_timestamp (snd (gst_spotify_src_do_seek true 61234567890 s))
     = 61234567890.
Proof.
  intro s. apply (seek_command_in_milliseconds true 61234567890 s).
  - reflexivity.
  - unfold GST_MSECOND. lia.
Defined.

Lemma eos_step (o : op) (s : GstSpotifySrcPrivate) :
  plays_on o = true -> is_eos s = true ->
  is_eos (fst (step o s)) = true /\ enqueued [snd (step o s)] = [].
Proof.
  intros Ho He.
  destruct o as [a f fr n | a n d sz | | | | | ok | | [|] pos | | ];
    try discriminate Ho.
  - rewrite delivery_refused_step; simpl; auto.
  - rewrite delivery_refused_step; simpl; auto.
  - simpl. unfold gst_spotify_src_create, create_loop.
    destruct (flushing s); [simpl; auto|].
    destruct (queue s); [rewrite He|]; simpl; auto.
  - simpl. unfold create_loop.
    destruct (queue s); [|simpl; auto].
    destruct (flushing s); [|rewrite He]; simpl; auto.
  - simpl. auto.
  - simpl. auto.
  - simpl. unfold gst_spotify_src_do_seek.
    destruct (is_first_seek s && (pos =? 0)); simpl; auto.
  - simpl. unfold spotify_end_of_track_cb, gst_spotify_src_end_of_stream.
    destruct (flushing s); simpl; auto.
Qed.

(** X15.  Once end of stream is signalled the queue only shrinks: until a
    restart or an accepted seek the flag stays set, no delivery is admitted,
    and what was queued at the signal is what has been handed out since
    followed by what is still queued. *)
Theorem after_end_of_stream_queue_only_shrinks
    (ops : list op) (s : GstSpotifySrcPrivate) :
  is_eos s = true ->
  Forall (fun o => plays_on o = true) ops ->
  is_eos (exec ops s) = true
  /\ enqueued (trace ops s) = []
  /\ queue s = delivered (trace ops s) ++ queue (exec ops s).
Proof.
  intros He Hops.
  assert (H : is_eos (exec ops s) = true /\ enqueued (trace ops s) = []).
  { revert s He. induction Hops as [|o ops Ho _ IH]; intros s He;
      cbn [exec trace].
    - auto.
    - destruct (eos_step o s Ho He) as [He' Hn].
      destruct (IH _ He') as [I1 I2].
      rewrite enqueued_cons, Hn, I2. auto. }
  destruct H as [H1 H2]. split; [exact H1|]. split; [exact H2|].
  pose proof (fifo_exec ops s Hops) as Hfifo.
  rewrite H2, app_nil_r in Hfifo. exact Hfifo.
Qed.

Lemma after_end_of_stream_queue_only_shrinks_witness :
  let format := {| sample_rate := 44100; channels := 2 |} in
  let s := exec [OpStart true; OpQueue true 25 (silence 100) 100;
                 OpQueue true 50 (silence 200) 200; OpEndOfTrack]
                gst_spotify_src_init in
  let ops := [OpDelivery true format (silence 1764) 441; OpCreate;
              OpQueue true 75 (silence 300) 300] in
  map GST_BUFFER_SIZE (queue (exec ops s)) = [200]
  /\ (is_eos (exec ops s) = true
      /\ enqueued (trace ops s) = []
      /\ queue s = delivered (trace ops s) ++ queue (exec ops s)).
Proof.
  intros format s ops. split.
  - reflexivity.
  - apply (after_end_of_stream_queue_only_shrinks ops s).
    + reflexivity.
    + repeat constructor.
Defined.

(** ** The effect log is a log *)

Lemma same_element_refl (s : GstSpotifySrcPrivate) : same_element s s.
Proof. unfold same_element. repeat split. Qed.









Lemma enqueued_app (es1 es2 : list event) :
  enqueued (es1 ++ es2) = enqueued es1 ++ enqueued es2.
Proof.
  induction es1 as [|e es1 IH]; [reflexivity|].
  change ((e :: es1) ++ es2) with (e :: (es1 ++ es2)).
  rewrite (enqueued_cons e (es1 ++ es2)), (enqueued_cons e es1), IH.
  apply app_assoc.
Qed.

Lemma delivered_app (es1 es2 : list event) :
  delivered (es1 ++ es2) = delivered es1 ++ delivered es2.
Proof.
  induction es1 as [|e es1 IH]; [reflexivity|].
  change ((e :: es1) ++ es2) with (e :: (es1 ++ es2)).
  rewrite (delivered_cons e (es1 ++ es2)), (delivered_cons e es1), IH.
  apply app_assoc.
Qed.

Lemma exec_app (l1 l2 : list op) (s : GstSpotifySrcPrivate) :
  exec (l1 ++ l2) s = exec l2 (exec l1 s).
Proof.
  revert s. induction l1 as [|o l1 IH]; intro s; simpl; [reflexivity|].
  apply IH.
Qed.

Lemma trace_app (l1 l2 : list op) (s : GstSpotifySrcPrivate) :
  trace (l1 ++ l2) s = trace l1 s ++ trace l2 (exec l1 s).
Proof.
  revert s. induction l1 as [|o l1 IH]; intro s; simpl; [reflexivity|].
  rewrite IH. reflexivity.
Qed.

Lemma flushing_run_is_idle (mid : list op) (s : GstSpotifySrcPrivate) :
  flushing s = true ->
  Forall (fun o => is_delivery o = true \/ o = OpCreate) mid ->
  exec mid s = s /\ enqueued (trace mid s) = []
  /\ delivered (trace mid s) = [].
Proof.
  intros H1 Hmid. induction Hmid as [|o mid Ho _ IH]; cbn [exec trace].
  - auto.
  - assert (Hs : step o s = (s, Refused)
                 \/ step o s
                    = (s, Pulled (Returned GST_FLOW_WRONG_STATE None))).
    { destruct Ho as [Ho | Ho].
      - left. apply delivery_refused_step; auto.
      - right. subst o. simpl. unfold gst_spotify_src_create.
        rewrite H1. reflexivity. }
    destruct IH as (I1 & I2 & I3).
    destruct Hs as [Hs | Hs]; rewrite Hs; simpl; auto.
Qed.

(** X17.  Unlock followed by unlock-stop cancels nothing but the waiting:
    on an element that was not flushing, whatever deliveries and fresh calls
    of create fall between the two, the deliveries are all refused, the
    calls of create hand out nothing, and afterwards the element is as it
    was before the unlock (the log of outward calls apart). *)
Theorem unlock_cycle_loses_nothing
    (mid : list op) (s : GstSpotifySrcPrivate) :
  flushing s = false ->
  Forall (fun o => is_delivery o = true \/ o = OpCreate) mid ->
  same_element (exec (OpUnlock :: mid ++ [OpUnlockStop]) s) s
  /\ enqueued (trace (OpUnlock :: mid ++ [OpUnlockStop]) s) = []
  /\ delivered (trace (OpUnlock :: mid ++ [OpUnlockStop]) s) = [].
Proof.
  intros Hf Hmid.
  change (OpUnlock :: mid ++ [OpUnlockStop])
    with ([OpUnlock] ++ mid ++ [OpUnlockStop]).
  rewrite !exec_app, !trace_app, !enqueued_app, !delivered_app.
  set (s1 := exec [OpUnlock] s).
  assert (H1 : flushing s1 = true) by reflexivity.
  destruct (flushing_run_is_idle mid s1 H1 Hmid) as (Hx & He & Hd).
  rewrite Hx, He, Hd.
  split; [|split; reflexivity].
  unfold s1. simpl. unfold same_element; simpl. rewrite Hf.
  repeat split.
Qed.

Lemma unlock_cycle_loses_nothing_witness :
  let format := {| sample_rate := 44100; channels := 2 |} in
  let s := exec [OpStart true; OpQueue true 25 (silence 100) 100]
                gst_spotify_src_init in
  let mid := [OpCreate; OpDelivery true format (silence 1764) 441;
              OpCreate] in
  same_element (exec (OpUnlock :: mid ++ [OpUnlockStop]) s) s
  /\ enqueued (trace (OpUnlock :: mid ++ [OpUnlockStop]) s) = []
  /\ delivered (trace (OpUnlock :: mid ++ [OpUnlockStop]) s) = [].
Proof.
  intros format s mid. apply (unlock_cycle_loses_nothing mid s).
  - reflexivity.
  - constructor; [right; reflexivity|].
    constructor; [left; reflexivity|].
    constructor; [right; reflexivity|].
    constructor.
Defined.

(** ** The session *)

Lemma run_callback_keeps (c : GstSpotifySessionContext)
    (cb : session_callback) :
  destroy (run_callback c cb) = destroy c
  /\ logged_out (run_callback c cb) = logged_out c
  /\ end_of_track (run_callback c cb) = end_of_track c.
Proof.
  destruct cb; simpl; try (repeat split; reflexivity).
  unfold spotify_notify_main_thread_cb.
  destruct (destroy c) eqn:Ed; simpl; rewrite ?Ed; repeat split; reflexivity.
Qed.

Lemma callbacks_keep (cbs : list session_callback)
    (c : GstSpotifySessionContext) :
  destroy (fold_left run_callback cbs c) = destroy c
  /\ logged_out (fold_left run_callback cbs c) = logged_out c
  /\ end_of_track (fold_left run_callback cbs c) = end_of_track c.
Proof.
  revert c. induction cbs as [|cb cbs IH]; intro c; simpl.
  - auto.
  - destruct (IH (run_callback c cb)) as (H1 & H2 & H3).
    destruct (run_callback_keeps c cb) as (K1 & K2 & K3).
    rewrite H1, H2, H3. auto.
Qed.

Lemma spotify_loop_keeps (pending : list session_callback)
    (c : GstSpotifySessionContext) :
  destroy (spotify_loop pending c) = destroy c
  /\ logged_out (spotify_loop pending c) = logged_out c
  /\ end_of_track (spotify_loop pending c) = end_of_track c.
Proof.
  unfold spotify_loop. destruct (destroy c) eqn:Ed; simpl.
  - rewrite Ed. auto.
  - destruct (callbacks_keep pending c) as (H1 & H2 & H3).
    rewrite H1, H2, H3. auto.
Qed.

Lemma login_wait_keeps (pumps : list (list session_callback))
    (c : GstSpotifySessionContext) :
  destroy (snd (login_wait pumps c)) = destroy c
  /\ logged_out (snd (login_wait pumps c)) = logged_out c
  /\ end_of_track (snd (login_wait pumps c)) = end_of_track c.
Proof.
  revert c. induction pumps as [|p pumps IH]; intro c; simpl.
  - destruct (logged_in c); simpl; auto.
  - destruct (logged_in c); simpl; [auto|].
    destruct (IH (spotify_loop p c)) as (H1 & H2 & H3).
    destruct (spotify_loop_keeps p c) as (K1 & K2 & K3).
    rewrite H1, H2, H3. auto.
Qed.

(** X18.  Two flags of the session context are dead: no callback of the
    table, and no login however long it pumps, ever writes [logged_out] or
    [end_of_track] (the logged-out callback clears [logged_in] instead, the
    end-of-track callback acts on the element only); nor do they touch
    [destroy]. *)
Theorem session_flags_nobody_writes
    (ret : Z) (pumps : list (list session_callback))
    (cbs : list session_callback) (c : GstSpotifySessionContext) :
  logged_out (fold_left run_callback cbs c) = logged_out c
  /\ end_of_track (fold_left run_callback cbs c) = end_of_track c
  /\ destroy (fold_left run_callback cbs c) = destroy c
  /\ logged_out (snd (spotify_login ret pumps c)) = logged_out c
  /\ end_of_track (snd (spotify_login ret pumps c)) = end_of_track c
  /\ destroy (snd (spotify_login ret pumps c)) = destroy c.
Proof.
  destruct (callbacks_keep cbs c) as (H1 & H2 & H3).
  repeat (split; [assumption|]).
  unfold spotify_login. destruct (ret =? SP_ERROR_OK); simpl; auto.
  match goal with
  | |- context [login_wait pumps ?c'] =>
      destruct (login_wait_keeps pumps c') as (L1 & L2 & L3)
  end.
  rewrite L1, L2, L3. auto.
Qed.

Lemma callbacks_keep_logged_out_state (cbs : list session_callback)
    (c : GstSpotifySessionContext) :
  (forall e, In (LoggedIn e) cbs -> e <> SP_ERROR_OK) ->
  logged_in c = false ->
  logged_in (fold_left run_callback cbs c) = false.
Proof.
  revert c. induction cbs as [|cb cbs IH]; intros c Hno Hc; simpl.
  - exact Hc.
  - apply IH.
    + intros e He. apply Hno. right. exact He.
    + destruct cb; simpl; try exact Hc; try reflexivity.
      * assert (Hne : error <> SP_ERROR_OK) by (apply Hno; left; reflexivity).
        apply Z.eqb_neq in Hne. rewrite Hne. reflexivity.
      * unfold spotify_notify_main_thread_cb.
        destruct (destroy c); simpl; exact Hc.
Qed.

Lemma login_wait_stuck (pumps : list (list session_callback))
    (c : GstSpotifySessionContext) :
  (forall p e, In p pumps -> In (LoggedIn e) p -> e <> SP_ERROR_OK) ->
  logged_in c = false ->
  fst (login_wait pumps c) = None
  /\ logged_in (snd (login_wait pumps c)) = false.
Proof.
  revert c. induction pumps as [|p pumps IH]; intros c Hno Hc; simpl;
    rewrite Hc.
  - simpl. auto.
  - apply IH.
    + intros q e Hq. apply Hno. right. exact Hq.
    + unfold spotify_loop. destruct (destroy c); simpl; [exact Hc|].
      apply callbacks_keep_logged_out_state; [|exact Hc].
      intros e He. apply (Hno p e); [left; reflexivity | exact He].
Qed.

(** X19.  A login that the service rejects hangs: once the login request is
    accepted by the client library, if every login result that arrives
    carries an error, the call is still waiting at the end of every schedule
    of pumps, however long, and [logged_in] is still clear.  There is no
    timeout and no failure path out of the loop. *)
Theorem rejected_login_never_returns
    (pumps : list (list session_callback)) (c : GstSpotifySessionContext) :
  (forall p e, In p pumps -> In (LoggedIn e) p -> e <> SP_ERROR_OK) ->
  fst (spotify_login SP_ERROR_OK pumps c) = None
  /\ logged_in (snd (spotify_login SP_ERROR_OK pumps c)) = false.
Proof.
  intro Hno. unfold spotify_login. simpl.
  apply login_wait_stuck; [exact Hno | reflexivity].
Qed.

Lemma rejected_login_never_returns_witness :
  let c := {| destroy := false; logged_in := true; logged_out := false;
              play_token_lost := false; end_of_track := false;
              connection_error := 0; streaming_error := 0;
              cond_signals := 0 |} in
  let pumps := [[NotifyMainThread]; [LoggedIn 6; LogMessage];
                [ConnectionError 6]; []] in
  fst (spotify_login SP_ERROR_OK pumps c) = None
  /\ logged_in (snd (spotify_login SP_ERROR_OK pumps c)) = false.
Proof.
  intros c pumps. apply (rejected_login_never_returns pumps c).
  intros p e Hp He. simpl in Hp.
  destruct Hp as [Hp | [Hp | [Hp | [Hp | []]]]]; subst p; simpl in He;
    repeat (destruct He as [He | He]; try discriminate He);
    try contradiction.
  injection He as <-. discriminate.
Defined.

Lemma login_wait_logged_in (pumps : list (list session_callback))
    (c : GstSpotifySessionContext) :
  logged_in c = true -> login_wait pumps c = (Some true, c).
Proof. intro H. destruct pumps; simpl; rewrite H; reflexivity. Qed.

Lemma login_wait_succeeds (pre post : list (list session_callback))
    (p : list session_callback) (c : GstSpotifySessionContext) :
  destroy c = false ->
  fst (login_wait (pre ++ (p ++ [LoggedIn SP_ERROR_OK]) :: post) c)
  = Some true
  /\ logged_in
       (snd (login_wait (pre ++ (p ++ [LoggedIn SP_ERROR_OK]) :: post) c))
     = true.
Proof.
  revert c. induction pre as [|x pre IH]; intros c Hd.
  - destruct (logged_in c) eqn:Hc.
    + rewrite login_wait_logged_in by exact Hc. auto.
    + simpl. rewrite Hc.
      rewrite login_wait_logged_in; [simpl; split; [reflexivity|]|];
        unfold spotify_loop; rewrite Hd; simpl;
        rewrite fold_left_app; reflexivity.
  - destruct (logged_in c) eqn:Hc.
    + rewrite login_wait_logged_in by exact Hc. auto.
    + simpl. rewrite Hc. apply IH.
      destruct (spotify_loop_keeps x c) as (K & _). rewrite K. exact Hd.
Qed.

(** X20.  A login returns TRUE as soon as a pump ends with a successful
    login result: if some turn of the loop makes the client deliver a login
    result [SP_ERROR_OK] last, the call returns TRUE with [logged_in] set,
    whatever came before and whatever would have come after. *)
Theorem login_returns_once_logged_in
    (pre post : list (list session_callback)) (p : list session_callback)
    (c : GstSpotifySessionContext) :
  destroy c = false ->
  fst (spotify_login SP_ERROR_OK
         (pre ++ (p ++ [LoggedIn SP_ERROR_OK]) :: post) c) = Some true
  /\ logged_in
       (snd (spotify_login SP_ERROR_OK
               (pre ++ (p ++ [LoggedIn SP_ERROR_OK]) :: post) c)) = true.
Proof.
  intro Hd. unfold spotify_login. simpl.
  apply login_wait_succeeds. exact Hd.
Qed.

Lemma login_returns_once_logged_in_witness :
  let c := {| destroy := false; logged_in := false; logged_out := false;
              play_token_lost := false; end_of_track := false;
              connection_error := 0; streaming_error := 0;
              cond_signals := 0 |} in
  let pre := [[NotifyMainThread]; [LoggedIn 6]] in
  let p := [MetadataUpdated] in
  let post := [[LoggedOut]] in
  fst (spotify_login SP_ERROR_OK
         (pre ++ (p ++ [LoggedIn SP_ERROR_OK]) :: post) c) = Some true
  /\ logged_in
       (snd (spotify_login SP_ERROR_OK
               (pre ++ (p ++ [LoggedIn SP_ERROR_OK]) :: post) c)) = true.
Proof.
  intros c pre p post.
  apply (login_returns_once_logged_in pre post p c). reflexivity.
Defined.

Lemma login_wait_never_false (pumps : list (list session_callback))
    (c : GstSpotifySessionContext) :
  fst (login_wait pumps c) <> Some false.
Proof.
  revert c. induction pumps as [|p pumps IH]; intro c; simpl;
    destruct (logged_in c); simpl; try discriminate.
  apply IH.
Qed.

(** X21.  Login reports failure exactly when the client library refuses the
    login request itself; in that case it returns at once, without pumping,
    with [logged_in] clear.  After an accepted request FALSE is never
    returned. *)
Theorem login_fails_exactly_on_refused_request
    (ret : Z) (pumps : list (list session_callback))
    (c : GstSpotifySessionContext) :
  (fst (spotify_login ret pumps c) = Some false <-> ret <> SP_ERROR_OK)
  /\ (ret <> SP_ERROR_OK ->
      spotify_login ret pumps c = spotify_login ret [] c
      /\ logged_in (snd (spotify_login ret pumps c)) = false).
Proof.
  unfold spotify_login.
  destruct (ret =? SP_ERROR_OK) eqn:Er.
  - apply Z.eqb_eq in Er. split.
    + split; intro H; [|contradiction].
      exfalso. exact (login_wait_never_false _ _ H).
    + intro H. contradiction.
  - apply Z.eqb_neq in Er. simpl. split; [split; auto|]. auto.
Qed.

Lemma login_fails_exactly_on_refused_request_witness :
  let c := {| destroy := false; logged_in := true; logged_out := false;
              play_token_lost := false; end_of_track := false;
              connection_error := 0; streaming_error := 0;
              cond_signals := 0 |} in
  fst (spotify_login 8 [[LoggedIn SP_ERROR_OK]] c) = Some false
  /\ spotify_login 8 [[LoggedIn SP_ERROR_OK]] c = spotify_login 8 [] c
  /\ logged_in (snd (spotify_login 8 [[LoggedIn SP_ERROR_OK]] c)) = false.
Proof.
  intro c.
  destruct (login_fails_exactly_on_refused_request
              8 [[LoggedIn SP_ERROR_OK]] c) as [Hiff Hret].
  split.
  - apply Hiff. discriminate.
  - apply Hret. discriminate.
Defined.

Lemma fread_appkey_length (file : list Byte.byte) :
  (Z.of_nat (length (fread_appkey file)) =? appkey_size)
  = (appkey_size <=? Z.of_nat (length file)).
Proof.
  unfold fread_appkey, appkey_size. rewrite length_firstn.
  change (Z.to_nat 321) with 321%nat.
  destruct (321 <=? Z.of_nat (length file)) eqn:E.
  - apply Z.leb_le in E. apply Z.eqb_eq. lia.
  - apply Z.leb_gt in E. apply Z.eqb_neq. lia.
Qed.

(** X22.  [spotify_create] hands the client library a key of exactly 321
    bytes, the first 321 of the key file, or does not call it at all: with
    no key file or a shorter one it fails before any call.  It succeeds
    exactly when the file is long enough, the session is created and the
    thread starts; when the thread does not start the session just created
    is released. *)
Theorem spotify_create_key_is_321_bytes
    (keyfile : option (list Byte.byte)) (ret : Z) (thread_ok : bool) :
  (forall key, In (SpwSessionCreate key)
                  (snd (spotify_create keyfile ret thread_ok)) ->
     Z.of_nat (length key) = appkey_size
     /\ exists file, keyfile = Some file /\ key = fread_appkey file)
  /\ (fst (spotify_create keyfile ret thread_ok) = true <->
      (exists file, keyfile = Some file
                    /\ appkey_size <= Z.of_nat (length file))
      /\ ret = SP_ERROR_OK /\ thread_ok = true)
  /\ (thread_ok = false ->
      In ThreadCreate (snd (spotify_create keyfile ret thread_ok)) ->
      In SpwSessionRelease (snd (spotify_create keyfile ret thread_ok))).
Proof.
  unfold spotify_create.
  destruct keyfile as [file|]; cbv zeta.
  2:{ split; [intros key []|]. split; [|intros _ []].
      split; [discriminate|]. intros [(file & H & _) _]. discriminate H. }
  pose proof (fread_appkey_length file) as Hlen. rewrite Hlen.
  destruct (appkey_size <=? Z.of_nat (length file)) eqn:Esz; simpl.
  - apply Z.eqb_eq in Hlen. apply Z.leb_le in Esz.
    assert (Hkey : forall key, SpwSessionCreate (fread_appkey file)
                               = SpwSessionCreate key ->
              Z.of_nat (length key) = appkey_size
              /\ exists f, Some file = Some f /\ key = fread_appkey f).
    { intros key H. injection H as <-. eauto. }
    destruct (ret =? SP_ERROR_OK) eqn:Er.
    + apply Z.eqb_eq in Er.
      destruct thread_ok; simpl.
      * split.
        { intros key [H | [H | []]]; [auto | discriminate H]. }
        split; [|intros H; discriminate H].
        split; [intros _|reflexivity]. eauto.
      * split.
        { intros key [H | [H | [H | []]]]; try discriminate H. auto. }
        split; [|auto].
        split; [discriminate|]. intros (_ & _ & H). discriminate H.
    + apply Z.eqb_neq in Er. simpl. split.
      { intros key [H | []]. auto. }
      split; [|intros _ [H | []]; discriminate H].
      split; [discriminate|]. intros (_ & H & _). contradiction.
  - apply Z.leb_gt in Esz. split; [intros key []|].
    split; [|intros _ []].
    split; [discriminate|].
    intros [(f & Hf & Hl) _]. injection Hf as <-. lia.
Qed.

Lemma spotify_create_key_is_321_bytes_witness :
  let file := silence 400 in
  fst (spotify_create (Some file) SP_ERROR_OK true) = true
  /\ fst (spotify_create (Some (silence 320)) SP_ERROR_OK true) = false
  /\ In SpwSessionRelease (snd (spotify_create (Some file) SP_ERROR_OK false)).
Proof.
  intro file.
  destruct (spotify_create_key_is_321_bytes (Some file) SP_ERROR_OK true)
    as (_ & Hok & _).
  destruct (spotify_create_key_is_321_bytes (Some file) SP_ERROR_OK false)
    as (_ & _ & Hrel).
  split; [|split].
  - apply Hok. split; [|split; reflexivity].
    exists file. split; [reflexivity | vm_compute; discriminate].
  - reflexivity.
  - apply Hrel; [reflexivity | vm_compute; auto].
Defined.

(** ** Order of delivery across flushes *)

Lemma subseq_refl {A : Type} (l : list A) : subseq l l.
Proof. induction l; constructor; assumption. Qed.

Lemma subseq_skip_app {A : Type} (d l1 l2 : list A) :
  subseq l1 l2 -> subseq l1 (d ++ l2).
Proof. intro H. induction d; simpl; [exact H | constructor; assumption]. Qed.

Lemma subseq_take_app {A : Type} (d l1 l2 : list A) :
  subseq l1 l2 -> subseq (d ++ l1) (d ++ l2).
Proof. intro H. induction d; simpl; [exact H | constructor; assumption]. Qed.

Lemma dropped_step (o : op) (s : GstSpotifySrcPrivate) :
  exists dropped,
    queue s ++ enqueued [snd (step o s)]
    = delivered [snd (step o s)] ++ dropped ++ queue (fst (step o s)).
Proof.
  destruct (plays_on o) eqn:Ho.
  - exists []. apply fifo_step. exact Ho.
  - destruct o as [a f fr n | a n d sz | | | | | ok | | [|] pos | | ];
      try discriminate Ho; simpl.
    + exists []. unfold gst_spotify_src_start.
      destruct ok; simpl; apply app_nil_r.
    + exists (queue s). rewrite flush_loop_nil. rewrite !app_nil_r.
      reflexivity.
    + unfold gst_spotify_src_do_seek.
      destruct (is_first_seek s && (pos =? 0)); simpl.
      * exists []. apply app_nil_r.
      * exists (queue s). rewrite flush_loop_nil, !app_nil_r. reflexivity.
    + exists (queue s). rewrite flush_loop_nil, !app_nil_r. reflexivity.
Qed.

Lemma delivered_subseq (ops : list op) (s : GstSpotifySrcPrivate) :
  subseq (delivered (trace ops s)) (queue s ++ enqueued (trace ops s)).
Proof.
  revert s. induction ops as [|o ops IH]; intro s; cbn [trace].
  - simpl. rewrite <- (app_nil_r (queue s ++ [])).
    apply subseq_skip_app. constructor.
  - rewrite enqueued_cons, delivered_cons, app_assoc.
    destruct (dropped_step o s) as [dropped Hd]. rewrite Hd.
    rewrite <- !app_assoc.
    apply subseq_take_app, subseq_skip_app, IH.
Qed.

(** X23.  Whatever is called on the element from init on, stops, seeks and
    flushes included, the buffers handed to the consumer are a subsequence
    of the buffers admitted, in the order of admission: the queue may drop
    buffers, it never invents, repeats or reorders them. *)
Theorem delivered_is_subsequence_of_admitted (ops : list op) :
  subseq (delivered (trace ops gst_spotify_src_init))
         (enqueued (trace ops gst_spotify_src_init)).
Proof. exact (delivered_subseq ops gst_spotify_src_init). Qed.
